(** * Mini MMORPG game client ([game.js]): state synchronisation core

    A shallow embedding of the [GameClient] class: the client object is a
    record, every method that reads or writes it is a computation in a small
    state / trace / exception monad, and the browser collaborators (socket,
    image loader, audio, console, canvas) appear as events of the trace. *)

From Stdlib Require Import QArith Qminmax Lqa Sorted.
From stdpp Require Import base decidable option list strings gmap.

Local Open Scope string_scope.
Local Open Scope list_scope.
Local Open Scope Z_scope.

(** ** Data carried by the protocol *)

(** A player record as the server sends it ([message.players[id]],
    [message.player]).  Coordinates are JavaScript numbers; they are taken as
    exact rationals, which covers every integer and half-integer the camera
    arithmetic meets. *)
Module Player.
Record t := mk {
  id : string;
  username : string;
  x : Q;
  y : Q;
  avatar : string;
  facing : string;
  isMoving : bool;
  animationFrame : Z
}.
End Player.

(** An avatar definition: [frames] is the [Object.entries] view of
    [avatar.frames], direction -> frame sources. *)
Module Avatar.
Record t := mk {
  name : string;
  frames : list (string * list string)
}.
End Avatar.

(** A loaded avatar ([avatarData] in [loadAvatarImage]): per direction the
    [Image] handles, each identified by the [src] it was pointed at. *)
Module AvatarData.
Record t := mk {
  name : string;
  frames : list (string * list string)
}.
End AvatarData.

(** A chat overlay ([{message, timestamp}] in [chatMessages]). *)
Module ChatData.
Record t := mk {
  message : string;
  timestamp : Z
}.
End ChatData.

(** A parsed inbound message.  A field that the JSON object does not carry
    reads as [undefined] in the source and as [None] here; [success] holds the
    truthiness of [message.success]. *)
Module Msg.
Record t := mk {
  action : option string;
  success : option bool;
  playerId : option string;
  players : option (list (string * Player.t));
  avatars : option (list (string * Avatar.t));
  player : option Player.t;
  avatar : option Avatar.t;
  message : option string;
  error : option string
}.
End Msg.

(** [WebSocket.readyState]. *)
Inductive ReadyState := CONNECTING | OPEN | CLOSING | CLOSED.

(** Values and object literals handed to [JSON.stringify]. *)
Inductive JValue := JStr (s : string) | JNum (q : Q).
Definition JObject := list (string * JValue).

Fixpoint field (k : string) (o : JObject) : option JValue :=
  match o with
  | [] => None
  | (k', v) :: o' => if String.eqb k k' then Some v else field k o'
  end.

(** ** JavaScript [Map] with string keys, in insertion order *)

Section JSMap.
Context {V : Type}.

Fixpoint Map_get (k : string) (m : list (string * V)) : option V :=
  match m with
  | [] => None
  | (k', v) :: m' => if String.eqb k k' then Some v else Map_get k m'
  end.


(** [set] overwrites in place when the key exists and appends otherwise. *)
Fixpoint Map_set (k : string) (v : V) (m : list (string * V)) : list (string * V) :=
  match m with
  | [] => [(k, v)]
  | (k', v') :: m' =>
      if String.eqb k k' then (k', v) :: m' else (k', v') :: Map_set k v m'
  end.

Fixpoint Map_delete (k : string) (m : list (string * V)) : list (string * V) :=
  match m with
  | [] => []
  | (k', v') :: m' =>
      if String.eqb k k' then m' else (k', v') :: Map_delete k m'
  end.

(** [new Map(entries)]. *)
Definition new_Map (entries : list (string * V)) : list (string * V) :=
  fold_left (fun m kv => Map_set (fst kv) (snd kv) m) entries [].

(** A key that is [undefined] or [null] is never present: all keys stored by
    the client are strings. *)
Definition Map_get_opt (k : option string) (m : list (string * V)) : option V :=
  match k with Some k => Map_get k m | None => None end.

Definition Map_delete_opt (k : option string) (m : list (string * V)) : list (string * V) :=
  match k with Some k => Map_delete k m | None => m end.
End JSMap.

(** Truthiness of a string-or-undefined value. *)
Definition truthy (s : option string) : bool :=
  match s with
  | Some s => negb (String.eqb s "")
  | None => false
  end.

Definition Math_max (a b : Q) : Q := Qmax a b.
Definition Math_min (a b : Q) : Q := Qmin a b.
Definition Qlt_bool (a b : Q) : bool := negb (Qle_bool b a).

(** ** The client object

    The fields of [GameClient] that the synchronisation core reads or writes.
    [worldImage], [sounds_footsteps], [sounds_ambient] and [ambientSource]
    record whether the object held there is present; [canvas_width] and
    [canvas_height] are [this.canvas.width] and [this.canvas.height]; [ws] is
    the socket's [readyState], [None] while [this.ws] is [null].

    [allPlayers] and [avatars] are iterated with [forEach] and keep their
    insertion order; [avatarImages] and [chatMessages] are only read and
    written by key, [pressedKeys] is a [Set].

    [myPlayer] is a reference to a player object.  No method assigns to a
    field of a player object: the objects come out of [JSON.parse], one set
    per message, and the maps are updated by rebinding a key to another
    object.  So the object [myPlayer] points at reads the same for as long as
    [myPlayer] points at it, and the field holds its contents. *)
Record GameClient := mkGameClient {
  worldImage : bool;
  worldWidth : Q;
  worldHeight : Q;
  canvas_width : Q;
  canvas_height : Q;
  myPlayerId : option string;
  myPlayer : option Player.t;
  allPlayers : list (string * Player.t);
  avatars : list (string * Avatar.t);
  avatarImages : gmap string AvatarData.t;
  cameraX : Q;
  cameraY : Q;
  ws : option ReadyState;
  pressedKeys : gset string;
  isMoving : bool;
  currentDirection : option string;
  sounds_footsteps : bool;
  sounds_ambient : bool;
  soundEnabled : bool;
  lastFootstepTime : Z;
  footstepCooldown : Z;
  ambientSource : bool;
  chatMessages : gmap string ChatData.t;
  chatDuration : Z
}.

(** [this.field = v], field by field. *)
Definition set_myPlayerId (v : option string) (c : GameClient) : GameClient :=
  {| worldImage := worldImage c; worldWidth := worldWidth c;
     worldHeight := worldHeight c; canvas_width := canvas_width c;
     canvas_height := canvas_height c; myPlayerId := v;
     myPlayer := myPlayer c; allPlayers := allPlayers c;
     avatars := avatars c; avatarImages := avatarImages c;
     cameraX := cameraX c; cameraY := cameraY c; ws := ws c;
     pressedKeys := pressedKeys c; isMoving := isMoving c;
     currentDirection := currentDirection c;
     sounds_footsteps := sounds_footsteps c;
     sounds_ambient := sounds_ambient c; soundEnabled := soundEnabled c;
     lastFootstepTime := lastFootstepTime c;
     footstepCooldown := footstepCooldown c;
     ambientSource := ambientSource c; chatMessages := chatMessages c;
     chatDuration := chatDuration c |}.

Definition set_myPlayer (v : option Player.t) (c : GameClient) : GameClient :=
  {| worldImage := worldImage c; worldWidth := worldWidth c;
     worldHeight := worldHeight c; canvas_width := canvas_width c;
     canvas_height := canvas_height c; myPlayerId := myPlayerId c;
     myPlayer := v; allPlayers := allPlayers c; avatars := avatars c;
     avatarImages := avatarImages c; cameraX := cameraX c;
     cameraY := cameraY c; ws := ws c; pressedKeys := pressedKeys c;
     isMoving := isMoving c; currentDirection := currentDirection c;
     sounds_footsteps := sounds_footsteps c;
     sounds_ambient := sounds_ambient c; soundEnabled := soundEnabled c;
     lastFootstepTime := lastFootstepTime c;
     footstepCooldown := footstepCooldown c;
     ambientSource := ambientSource c; chatMessages := chatMessages c;
     chatDuration := chatDuration c |}.

Definition set_allPlayers (v : list (string * Player.t)) (c : GameClient) : GameClient :=
  {| worldImage := worldImage c; worldWidth := worldWidth c;
     worldHeight := worldHeight c; canvas_width := canvas_width c;
     canvas_height := canvas_height c; myPlayerId := myPlayerId c;
     myPlayer := myPlayer c; allPlayers := v; avatars := avatars c;
     avatarImages := avatarImages c; cameraX := cameraX c;
     cameraY := cameraY c; ws := ws c; pressedKeys := pressedKeys c;
     isMoving := isMoving c; currentDirection := currentDirection c;
     sounds_footsteps := sounds_footsteps c;
     sounds_ambient := sounds_ambient c; soundEnabled := soundEnabled c;
     lastFootstepTime := lastFootstepTime c;
     footstepCooldown := footstepCooldown c;
     ambientSource := ambientSource c; chatMessages := chatMessages c;
     chatDuration := chatDuration c |}.

Definition set_avatars (v : list (string * Avatar.t)) (c : GameClient) : GameClient :=
  {| worldImage := worldImage c; worldWidth := worldWidth c;
     worldHeight := worldHeight c; canvas_width := canvas_width c;
     canvas_height := canvas_height c; myPlayerId := myPlayerId c;
     myPlayer := myPlayer c; allPlayers := allPlayers c; avatars := v;
     avatarImages := avatarImages c; cameraX := cameraX c;
     cameraY := cameraY c; ws := ws c; pressedKeys := pressedKeys c;
     isMoving := isMoving c; currentDirection := currentDirection c;
     sounds_footsteps := sounds_footsteps c;
     sounds_ambient := sounds_ambient c; soundEnabled := soundEnabled c;
     lastFootstepTime := lastFootstepTime c;
     footstepCooldown := footstepCooldown c;
     ambientSource := ambientSource c; chatMessages := chatMessages c;
     chatDuration := chatDuration c |}.

Definition set_avatarImages (v : gmap string AvatarData.t) (c : GameClient) : GameClient :=
  {| worldImage := worldImage c; worldWidth := worldWidth c;
     worldHeight := worldHeight c; canvas_width := canvas_width c;
     canvas_height := canvas_height c; myPlayerId := myPlayerId c;
     myPlayer := myPlayer c; allPlayers := allPlayers c;
     avatars := avatars c; avatarImages := v; cameraX := cameraX c;
     cameraY := cameraY c; ws := ws c; pressedKeys := pressedKeys c;
     isMoving := isMoving c; currentDirection := currentDirection c;
     sounds_footsteps := sounds_footsteps c;
     sounds_ambient := sounds_ambient c; soundEnabled := soundEnabled c;
     lastFootstepTime := lastFootstepTime c;
     footstepCooldown := footstepCooldown c;
     ambientSource := ambientSource c; chatMessages := chatMessages c;
     chatDuration := chatDuration c |}.

Definition set_cameraX (v : Q) (c : GameClient) : GameClient :=
  {| worldImage := worldImage c; worldWidth := worldWidth c;
     worldHeight := worldHeight c; canvas_width := canvas_width c;
     canvas_height := canvas_height c; myPlayerId := myPlayerId c;
     myPlayer := myPlayer c; allPlayers := allPlayers c;
     avatars := avatars c; avatarImages := avatarImages c; cameraX := v;
     cameraY := cameraY c; ws := ws c; pressedKeys := pressedKeys c;
     isMoving := isMoving c; currentDirection := currentDirection c;
     sounds_footsteps := sounds_footsteps c;
     sounds_ambient := sounds_ambient c; soundEnabled := soundEnabled c;
     lastFootstepTime := lastFootstepTime c;
     footstepCooldown := footstepCooldown c;
     ambientSource := ambientSource c; chatMessages := chatMessages c;
     chatDuration := chatDuration c |}.

Definition set_cameraY (v : Q) (c : GameClient) : GameClient :=
  {| worldImage := worldImage c; worldWidth := worldWidth c;
     worldHeight := worldHeight c; canvas_width := canvas_width c;
     canvas_height := canvas_height c; myPlayerId := myPlayerId c;
     myPlayer := myPlayer c; allPlayers := allPlayers c;
     avatars := avatars c; avatarImages := avatarImages c;
     cameraX := cameraX c; cameraY := v; ws := ws c;
     pressedKeys := pressedKeys c; isMoving := isMoving c;
     currentDirection := currentDirection c;
     sounds_footsteps := sounds_footsteps c;
     sounds_ambient := sounds_ambient c; soundEnabled := soundEnabled c;
     lastFootstepTime := lastFootstepTime c;
     footstepCooldown := footstepCooldown c;
     ambientSource := ambientSource c; chatMessages := chatMessages c;
     chatDuration := chatDuration c |}.

Definition set_ws (v : option ReadyState) (c : GameClient) : GameClient :=
  {| worldImage := worldImage c; worldWidth := worldWidth c;
     worldHeight := worldHeight c; canvas_width := canvas_width c;
     canvas_height := canvas_height c; myPlayerId := myPlayerId c;
     myPlayer := myPlayer c; allPlayers := allPlayers c;
     avatars := avatars c; avatarImages := avatarImages c;
     cameraX := cameraX c; cameraY := cameraY c; ws := v;
     pressedKeys := pressedKeys c; isMoving := isMoving c;
     currentDirection := currentDirection c;
     sounds_footsteps := sounds_footsteps c;
     sounds_ambient := sounds_ambient c; soundEnabled := soundEnabled c;
     lastFootstepTime := lastFootstepTime c;
     footstepCooldown := footstepCooldown c;
     ambientSource := ambientSource c; chatMessages := chatMessages c;
     chatDuration := chatDuration c |}.

Definition set_pressedKeys (v : gset string) (c : GameClient) : GameClient :=
  {| worldImage := worldImage c; worldWidth := worldWidth c;
     worldHeight := worldHeight c; canvas_width := canvas_width c;
     canvas_height := canvas_height c; myPlayerId := myPlayerId c;
     myPlayer := myPlayer c; allPlayers := allPlayers c;
     avatars := avatars c; avatarImages := avatarImages c;
     cameraX := cameraX c; cameraY := cameraY c; ws := ws c;
     pressedKeys := v; isMoving := isMoving c;
     currentDirection := currentDirection c;
     sounds_footsteps := sounds_footsteps c;
     sounds_ambient := sounds_ambient c; soundEnabled := soundEnabled c;
     lastFootstepTime := lastFootstepTime c;
     footstepCooldown := footstepCooldown c;
     ambientSource := ambientSource c; chatMessages := chatMessages c;
     chatDuration := chatDuration c |}.

Definition set_isMoving (v : bool) (c : GameClient) : GameClient :=
  {| worldImage := worldImage c; worldWidth := worldWidth c;
     worldHeight := worldHeight c; canvas_width := canvas_width c;
     canvas_height := canvas_height c; myPlayerId := myPlayerId c;
     myPlayer := myPlayer c; allPlayers := allPlayers c;
     avatars := avatars c; avatarImages := avatarImages c;
     cameraX := cameraX c; cameraY := cameraY c; ws := ws c;
     pressedKeys := pressedKeys c; isMoving := v;
     currentDirection := currentDirection c;
     sounds_footsteps := sounds_footsteps c;
     sounds_ambient := sounds_ambient c; soundEnabled := soundEnabled c;
     lastFootstepTime := lastFootstepTime c;
     footstepCooldown := footstepCooldown c;
     ambientSource := ambientSource c; chatMessages := chatMessages c;
     chatDuration := chatDuration c |}.

Definition set_currentDirection (v : option string) (c : GameClient) : GameClient :=
  {| worldImage := worldImage c; worldWidth := worldWidth c;
     worldHeight := worldHeight c; canvas_width := canvas_width c;
     canvas_height := canvas_height c; myPlayerId := myPlayerId c;
     myPlayer := myPlayer c; allPlayers := allPlayers c;
     avatars := avatars c; avatarImages := avatarImages c;
     cameraX := cameraX c; cameraY := cameraY c; ws := ws c;
     pressedKeys := pressedKeys c; isMoving := isMoving c;
     currentDirection := v; sounds_footsteps := sounds_footsteps c;
     sounds_ambient := sounds_ambient c; soundEnabled := soundEnabled c;
     lastFootstepTime := lastFootstepTime c;
     footstepCooldown := footstepCooldown c;
     ambientSource := ambientSource c; chatMessages := chatMessages c;
     chatDuration := chatDuration c |}.

Definition set_lastFootstepTime (v : Z) (c : GameClient) : GameClient :=
  {| worldImage := worldImage c; worldWidth := worldWidth c;
     worldHeight := worldHeight c; canvas_width := canvas_width c;
     canvas_height := canvas_height c; myPlayerId := myPlayerId c;
     myPlayer := myPlayer c; allPlayers := allPlayers c;
     avatars := avatars c; avatarImages := avatarImages c;
     cameraX := cameraX c; cameraY := cameraY c; ws := ws c;
     pressedKeys := pressedKeys c; isMoving := isMoving c;
     currentDirection := currentDirection c;
     sounds_footsteps := sounds_footsteps c;
     sounds_ambient := sounds_ambient c; soundEnabled := soundEnabled c;
     lastFootstepTime := v; footstepCooldown := footstepCooldown c;
     ambientSource := ambientSource c; chatMessages := chatMessages c;
     chatDuration := chatDuration c |}.

Definition set_ambientSource (v : bool) (c : GameClient) : GameClient :=
  {| worldImage := worldImage c; worldWidth := worldWidth c;
     worldHeight := worldHeight c; canvas_width := canvas_width c;
     canvas_height := canvas_height c; myPlayerId := myPlayerId c;
     myPlayer := myPlayer c; allPlayers := allPlayers c;
     avatars := avatars c; avatarImages := avatarImages c;
     cameraX := cameraX c; cameraY := cameraY c; ws := ws c;
     pressedKeys := pressedKeys c; isMoving := isMoving c;
     currentDirection := currentDirection c;
     sounds_footsteps := sounds_footsteps c;
     sounds_ambient := sounds_ambient c; soundEnabled := soundEnabled c;
     lastFootstepTime := lastFootstepTime c;
     footstepCooldown := footstepCooldown c; ambientSource := v;
     chatMessages := chatMessages c; chatDuration := chatDuration c |}.

Definition set_chatMessages (v : gmap string ChatData.t) (c : GameClient) : GameClient :=
  {| worldImage := worldImage c; worldWidth := worldWidth c;
     worldHeight := worldHeight c; canvas_width := canvas_width c;
     canvas_height := canvas_height c; myPlayerId := myPlayerId c;
     myPlayer := myPlayer c; allPlayers := allPlayers c;
     avatars := avatars c; avatarImages := avatarImages c;
     cameraX := cameraX c; cameraY := cameraY c; ws := ws c;
     pressedKeys := pressedKeys c; isMoving := isMoving c;
     currentDirection := currentDirection c;
     sounds_footsteps := sounds_footsteps c;
     sounds_ambient := sounds_ambient c; soundEnabled := soundEnabled c;
     lastFootstepTime := lastFootstepTime c;
     footstepCooldown := footstepCooldown c;
     ambientSource := ambientSource c; chatMessages := v;
     chatDuration := chatDuration c |}.

(** ** Effects *)

(** The client methods of the model; an entry into one is recorded in the
    trace, so that invocations can be counted the way a test spy would. *)
Inductive Method :=
| m_joinGame
| m_handleServerMessage
| m_loadAvatarImages
| m_loadAvatarImage (name : string)
| m_updateCamera
| m_draw
| m_drawChatBubble (id : string)
| m_playFootstepSound
| m_playAmbientSound
| m_stopAmbientSound
| m_sendChatMessage (message : string)
| m_handleKeyDown (key : string)
| m_handleKeyUp (key : string)
| m_sendMoveCommand (direction : string)
| m_sendStopCommand.

Inductive Event :=
| Call (m : Method)
| WsSend (payload : JObject)          (* [this.ws.send(JSON.stringify(payload))] *)
| ImageFetch (src : string)           (* [new Image()] pointed at [src] *)
| AudioStart (looping : bool)         (* [source.start()] on a buffer source *)
| ConsoleLog (text : string)
| ConsoleError (text : string)
| PaintBubble (text : string) (screenX bubbleY : Q).

Inductive Exn := TypeError | SyntaxError | InvalidStateError.

Inductive Completion (A : Type) :=
| Normal (a : A)
| Thrown (e : Exn).
Arguments Normal {A} a.
Arguments Thrown {A} e.

(** The outcome of running a method: how it completed, the client it left
    behind (writes made before a [throw] stay), and what it did. *)
Record Run (A : Type) := mkRun {
  completion : Completion A;
  client : GameClient;
  trace : list Event
}.
Arguments mkRun {A}.
Arguments completion {A}.
Arguments client {A}.
Arguments trace {A}.

Definition M (A : Type) : Type := GameClient -> Run A.

#[global] Instance M_ret : MRet M := fun A a st => mkRun (Normal a) st [].

#[global] Instance M_bind : MBind M := fun A B k m st =>
  let r := m st in
  match completion r with
  | Normal a =>
      let r' := k a (client r) in
      mkRun (completion r') (client r') (trace r ++ trace r')
  | Thrown e => mkRun (Thrown e) (client r) (trace r)
  end.

Definition get : M GameClient := fun st => mkRun (Normal st) st [].
Definition modify (f : GameClient -> GameClient) : M unit :=
  fun st => mkRun (Normal tt) (f st) [].
Definition emit (e : Event) : M unit := fun st => mkRun (Normal tt) st [e].
Definition throw {A} (e : Exn) : M A := fun st => mkRun (Thrown e) st [].
Definition enter (m : Method) : M unit := emit (Call m).

(** [try { body } catch (error) { handler }]. *)
Definition try_catch {A} (body : M A) (handler : Exn -> M A) : M A := fun st =>
  let r := body st in
  match completion r with
  | Normal a => r
  | Thrown e =>
      let r' := handler e (client r) in
      mkRun (completion r') (client r') (trace r ++ trace r')
  end.

(** [xs.forEach(f)]. *)
Fixpoint forEach {A} (f : A -> M unit) (xs : list A) : M unit :=
  match xs with
  | [] => mret tt
  | x :: xs' => f x ;; forEach f xs'
  end.

(** [Object.entries(o)]: a [TypeError] when [o] is [undefined]. *)
Definition Object_entries {A} (o : option (list (string * A))) : M (list (string * A)) :=
  match o with
  | Some entries => mret entries
  | None => throw TypeError
  end.

(** Reading a property of [o]: a [TypeError] when [o] is [undefined]. *)
Definition property_of {A B} (o : option A) (prop : A -> B) : M B :=
  match o with
  | Some a => mret (prop a)
  | None => throw TypeError
  end.

(** ** The client after construction

    [constructor] followed by [init]: the canvas takes the window size, the
    world image object exists from [loadWorldMap] on (loaded or not), the
    sound buffers exist when the audio context could be created, and the
    socket is connecting. *)
Definition constructor (innerWidth innerHeight : Q) (audio : bool) : GameClient :=
  {| worldImage := true; worldWidth := 2048; worldHeight := 2048;
     canvas_width := innerWidth; canvas_height := innerHeight;
     myPlayerId := None; myPlayer := None; allPlayers := []; avatars := [];
     avatarImages := ∅; cameraX := 0; cameraY := 0; ws := Some CONNECTING;
     pressedKeys := ∅; isMoving := false; currentDirection := None;
     sounds_footsteps := audio; sounds_ambient := audio; soundEnabled := audio;
     lastFootstepTime := 0; footstepCooldown := 300; ambientSource := false;
     chatMessages := ∅; chatDuration := 3000 |}.

(** ** Outbound channel *)

(** [!this.ws || this.ws.readyState !== WebSocket.OPEN] *)
Definition ws_not_open (st : GameClient) : bool :=
  match ws st with
  | Some OPEN => false
  | _ => true
  end.

(** [this.ws.send(JSON.stringify(payload))]: a [TypeError] without a socket,
    an [InvalidStateError] while connecting, a silent drop once closing. *)
Definition ws_send (payload : JObject) : M unit :=
  st ← get;
  match ws st with
  | None => throw TypeError
  | Some CONNECTING => throw InvalidStateError
  | Some OPEN => emit (WsSend payload)
  | Some _ => mret tt
  end.

Definition joinMessage : JObject :=
  [("action", JStr "join_game"); ("username", JStr "Tim")].

Definition joinGame : M unit :=
  enter m_joinGame ;;
  ws_send joinMessage.

Definition moveMessage (direction : string) : JObject :=
  [("action", JStr "move"); ("direction", JStr direction)].

Definition sendMoveCommand (direction : string) : M unit :=
  enter (m_sendMoveCommand direction) ;;
  st ← get;
  if ws_not_open st then mret tt
  else ws_send (moveMessage direction).

Definition stopMessage : JObject := [("action", JStr "stop")].

Definition sendStopCommand : M unit :=
  enter m_sendStopCommand ;;
  st ← get;
  if ws_not_open st then mret tt
  else ws_send stopMessage.

(** ** Input translator *)

Definition getDirectionFromKey (key : string) : option string :=
  if String.eqb key "ArrowUp" then Some "up"
  else if String.eqb key "ArrowDown" then Some "down"
  else if String.eqb key "ArrowLeft" then Some "left"
  else if String.eqb key "ArrowRight" then Some "right"
  else None.

Definition handleKeyDown (key : string) : M unit :=
  enter (m_handleKeyDown key) ;;
  st ← get;
  match getDirectionFromKey key with
  | Some direction =>
      if bool_decide (key ∈ pressedKeys st) then mret tt
      else
        modify (fun st => set_pressedKeys ({[key]} ∪ pressedKeys st) st) ;;
        sendMoveCommand direction ;;
        modify (set_isMoving true) ;;
        modify (set_currentDirection (Some direction))
  | None => mret tt
  end.

Definition handleKeyUp (key : string) : M unit :=
  enter (m_handleKeyUp key) ;;
  st ← get;
  match getDirectionFromKey key with
  | Some direction =>
      if bool_decide (key ∈ pressedKeys st) then
        modify (fun st => set_pressedKeys (pressedKeys st ∖ {[key]}) st) ;;
        st ← get;
        if bool_decide (size (pressedKeys st) = 0%nat) then
          sendStopCommand ;;
          modify (set_isMoving false) ;;
          modify (set_currentDirection None)
        else mret tt
      else mret tt
  | None => mret tt
  end.

(** ** Overlay tracker and renderer *)

(** The head of [drawChatBubble]: look the overlay of [id] up and test it
    against [chatDuration]; an expired overlay is deleted by this read.  The
    result is the overlay that is still to be shown, if any. *)
Definition liveChatData (id : string) (now : Z) : M (option ChatData.t) :=
  st ← get;
  match chatMessages st !! id with
  | None => mret None
  | Some chatData =>
      if now - ChatData.timestamp chatData >? chatDuration st then
        modify (fun st => set_chatMessages (delete id (chatMessages st)) st) ;;
        mret None
      else mret (Some chatData)
  end.

Definition drawChatBubble (player : Player.t) (now : Z) : M unit :=
  enter (m_drawChatBubble (Player.id player)) ;;
  live ← liveChatData (Player.id player) now;
  match live with
  | None => mret tt
  | Some chatData =>
      st ← get;
      let screenX := (Player.x player - cameraX st)%Q in
      let screenY := (Player.y player - cameraY st)%Q in
      if Qlt_bool screenX (-100) || Qlt_bool (canvas_width st + 100) screenX
         || Qlt_bool screenY (-100) || Qlt_bool (canvas_height st + 100) screenY
      then mret tt
      else
        let bubbleY := (screenY - 60)%Q in
        emit (PaintBubble (ChatData.message chatData) screenX (bubbleY + 20))
  end.

(** [draw]: the canvas is not part of the model, so of a repaint only the
    entry, the chat bubbles and the overlay purge they perform are kept
    ([drawAvatar] and [drawMiniMap] write to the canvas and nothing else). *)
Definition draw (now : Z) : M unit :=
  enter m_draw ;;
  st ← get;
  if negb (worldImage st) then mret tt
  else forEach (fun kv => drawChatBubble (snd kv) now) (allPlayers st).

(** ** Camera *)

Definition updateCamera : M unit :=
  enter m_updateCamera ;;
  st ← get;
  match myPlayer st with
  | None => mret tt
  | Some p =>
      modify (fun st => set_cameraX (Player.x p - canvas_width st / 2)%Q st) ;;
      modify (fun st => set_cameraY (Player.y p - canvas_height st / 2)%Q st) ;;
      modify (fun st => set_cameraX
        (Math_max 0 (Math_min (cameraX st) (worldWidth st - canvas_width st))) st) ;;
      modify (fun st => set_cameraY
        (Math_max 0 (Math_min (cameraY st) (worldHeight st - canvas_height st))) st)
  end.

(** ** Audio cues *)

Definition playFootstepSound (now : Z) : M unit :=
  enter m_playFootstepSound ;;
  st ← get;
  if negb (soundEnabled st) || negb (sounds_footsteps st) then mret tt
  else if now - lastFootstepTime st <? footstepCooldown st then mret tt
  else
    modify (set_lastFootstepTime now) ;;
    emit (AudioStart false).

Definition playAmbientSound : M unit :=
  enter m_playAmbientSound ;;
  st ← get;
  if negb (soundEnabled st) || negb (sounds_ambient st) then mret tt
  else
    emit (AudioStart true) ;;
    modify (set_ambientSource true).

(** ** Asset cache *)

(** [frames.map(frameData => { img = new Image(); img.src = frameData; ... })]:
    one fetch per frame source, in order; the handles are returned. *)
Fixpoint loadFrames (frames : list string) : M (list string) :=
  match frames with
  | [] => mret []
  | frameData :: rest =>
      emit (ImageFetch frameData) ;;
      imgs ← loadFrames rest;
      mret (frameData :: imgs)
  end.

(** The [forEach] over [Object.entries(avatar.frames)], filling
    [avatarData.frames] direction by direction. *)
Fixpoint loadDirections (entries : list (string * list string))
    (acc : list (string * list string)) : M (list (string * list string)) :=
  match entries with
  | [] => mret acc
  | (direction, frames) :: rest =>
      imgs ← loadFrames frames;
      loadDirections rest (Map_set direction imgs acc)
  end.

Definition loadAvatarImage (avatar : Avatar.t) : M unit :=
  enter (m_loadAvatarImage (Avatar.name avatar)) ;;
  let avatarKey := Avatar.name avatar in
  st ← get;
  if bool_decide (is_Some (avatarImages st !! avatarKey)) then mret tt
  else
    loaded ← loadDirections (Avatar.frames avatar) [];
    let avatarData := AvatarData.mk (Avatar.name avatar) loaded in
    modify (fun st => set_avatarImages (<[avatarKey := avatarData]> (avatarImages st)) st).

Definition loadAvatarImages : M unit :=
  enter m_loadAvatarImages ;;
  st ← get;
  forEach (fun kv => loadAvatarImage (snd kv)) (avatars st).

(** ** Chat *)

Definition chatMessage (message : string) : JObject :=
  [("action", JStr "chat"); ("message", JStr message)].

Definition sendChatMessage (message : string) (now : Z) : M unit :=
  enter (m_sendChatMessage message) ;;
  st ← get;
  if ws_not_open st then mret tt
  else
    match myPlayerId st with
    | Some me =>
        if truthy (Some me) then
          modify (fun st => set_chatMessages
            (<[me := ChatData.mk message now]> (chatMessages st)) st) ;;
          draw now
        else mret tt
    | None => mret tt
    end ;;
    ws_send (chatMessage message).

(** ** Sync engine *)

Inductive Kind :=
| join_game | players_moved | player_joined | player_left | chat | unrecognised.

(** The [switch (message.action)]. *)
Definition kind_of (action : option string) : Kind :=
  match action with
  | Some a =>
      if String.eqb a "join_game" then join_game
      else if String.eqb a "players_moved" then players_moved
      else if String.eqb a "player_joined" then player_joined
      else if String.eqb a "player_left" then player_left
      else if String.eqb a "chat" then chat
      else unrecognised
  | None => unrecognised
  end.

(** One turn of the [forEach] in the ['players_moved'] case. *)
Definition movePlayer (now : Z) (entry : string * Player.t) : M unit :=
  let '(playerId, playerData) := entry in
  modify (fun st => set_allPlayers (Map_set playerId playerData (allPlayers st)) st) ;;
  st ← get;
  if bool_decide (Some playerId = myPlayerId st) && Player.isMoving playerData
  then playFootstepSound now
  else mret tt.

Definition handleServerMessage (message : Msg.t) (now : Z) : M unit :=
  enter m_handleServerMessage ;;
  match kind_of (Msg.action message) with
  | join_game =>
      if default false (Msg.success message) then
        modify (set_myPlayerId (Msg.playerId message)) ;;
        players ← Object_entries (Msg.players message);
        modify (set_allPlayers (new_Map players)) ;;
        avatars ← Object_entries (Msg.avatars message);
        modify (set_avatars (new_Map avatars)) ;;
        modify (fun st => set_myPlayer (Map_get_opt (myPlayerId st) (allPlayers st)) st) ;;
        loadAvatarImages ;;
        updateCamera ;;
        draw now
      else emit (ConsoleError "Failed to join game:")
  | players_moved =>
      players ← Object_entries (Msg.players message);
      forEach (movePlayer now) players ;;
      updateCamera ;;
      draw now
  | player_joined =>
      id ← property_of (Msg.player message) Player.id;
      player ← property_of (Msg.player message) (fun p => p);
      modify (fun st => set_allPlayers (Map_set id player (allPlayers st)) st) ;;
      name ← property_of (Msg.avatar message) Avatar.name;
      avatar ← property_of (Msg.avatar message) (fun a => a);
      modify (fun st => set_avatars (Map_set name avatar (avatars st)) st) ;;
      loadAvatarImage avatar ;;
      draw now
  | player_left =>
      modify (fun st => set_allPlayers (Map_delete_opt (Msg.playerId message) (allPlayers st)) st) ;;
      draw now
  | chat =>
      if truthy (Msg.playerId message) && truthy (Msg.message message) then
        modify (fun st => set_chatMessages
          (<[default "" (Msg.playerId message) :=
               ChatData.mk (default "" (Msg.message message)) now]> (chatMessages st)) st) ;;
        draw now
      else mret tt
  | unrecognised => emit (ConsoleLog "Unknown message type:")
  end.

(** ** Socket callbacks ([connectToServer]) *)

(** [ws.onopen]; the browser has moved the socket to [OPEN] when it fires. *)
Definition ws_onopen : M unit :=
  modify (set_ws (Some OPEN)) ;;
  emit (ConsoleLog "Connected to game server") ;;
  joinGame ;;
  playAmbientSound.

(** [ws.onmessage]: [parsed] is the outcome of [JSON.parse(event.data)],
    [None] when the text is not JSON. *)
Definition ws_onmessage (parsed : option Msg.t) (now : Z) : M unit :=
  try_catch
    (message ← (match parsed with
                | Some m => mret m
                | None => throw SyntaxError
                end);
     handleServerMessage message now)
    (fun error => emit (ConsoleError "Failed to parse server message:")).

Definition stopAmbientSound : M unit :=
  enter m_stopAmbientSound ;;
  st ← get;
  if ambientSource st then modify (set_ambientSource false) else mret tt.

(** [ws.onclose]; the socket is [CLOSED] when it fires. *)
Definition ws_onclose : M unit :=
  modify (set_ws (Some CLOSED)) ;;
  emit (ConsoleLog "Disconnected from game server") ;;
  stopAmbientSound.

(** ** The event loop

    Everything the client does happens in a callback, one at a time, each run
    to completion.  [now] is the clock reading ([Date.now()]) the callback
    works with. *)
Inductive Input :=
| SocketOpen
| SocketClose
| SocketMessage (parsed : option Msg.t)
| KeyDown (key : string)
| KeyUp (key : string)
| ChatButton (message : string).

Definition dispatch (now : Z) (i : Input) : M unit :=
  match i with
  | SocketOpen => ws_onopen
  | SocketClose => ws_onclose
  | SocketMessage parsed => ws_onmessage parsed now
  | KeyDown key => handleKeyDown key
  | KeyUp key => handleKeyUp key
  | ChatButton message => sendChatMessage message now
  end.

(** The client after a sequence of timed inputs (a callback that throws
    leaves its writes behind and the loop goes on), and what each did. *)
Fixpoint after (inputs : list (Z * Input)) (st : GameClient) : GameClient :=
  match inputs with
  | [] => st
  | (now, i) :: rest => after rest (client (dispatch now i st))
  end.

Fixpoint session (inputs : list (Z * Input)) (st : GameClient) : list (Z * list Event) :=
  match inputs with
  | [] => []
  | (now, i) :: rest =>
      let r := dispatch now i st in
      (now, trace r) :: session rest (client r)
  end.

(** ** Reading a trace *)

#[global] Instance Method_eq_dec : EqDecision Method.
Proof. solve_decision. Defined.

Definition is_call (m : Method) (e : Event) : bool :=
  match e with
  | Call m' => bool_decide (m' = m)
  | _ => false
  end.

(** How many times [m] was invoked. *)
Definition calls (m : Method) (tr : list Event) : nat :=
  length (List.filter (is_call m) tr).

Definition is_footstep (e : Event) : bool :=
  match e with
  | AudioStart false => true
  | _ => false
  end.

(** How many footstep cues were started. *)
Definition cues (tr : list Event) : nat :=
  length (List.filter is_footstep tr).

(** The records written to the socket, in order. *)
Fixpoint sends (tr : list Event) : list JObject :=
  match tr with
  | [] => []
  | WsSend payload :: tr' => payload :: sends tr'
  | _ :: tr' => sends tr'
  end.

(** The image sources fetched, in order. *)
Fixpoint fetches (tr : list Event) : list string :=
  match tr with
  | [] => []
  | ImageFetch src :: tr' => src :: fetches tr'
  | _ :: tr' => fetches tr'
  end.

(** The console lines written (log or error). *)
Fixpoint logged (tr : list Event) : list string :=
  match tr with
  | [] => []
  | ConsoleLog text :: tr' => text :: logged tr'
  | ConsoleError text :: tr' => text :: logged tr'
  | _ :: tr' => logged tr'
  end.

(** The clock readings at which a footstep cue was started. *)
Definition cue_times (log : list (Z * list Event)) : list Z :=
  flat_map (fun entry => repeat (fst entry) (cues (snd entry))) log.

(** ** Key-edge semantics as the specification words it

    The pressed set follows the physical keys; a move intent goes with a
    key's transition from not pressed to pressed, a stop intent with the
    set's transition from non-empty to empty.  Which keys are movement keys,
    and their directions, is [getDirectionFromKey]. *)
Module KeySpec.

Inductive KeyEvent := Down (key : string) | Up (key : string).

Inductive Intent := Move (direction : string) | Stop.

Definition next (pressed : gset string) (ev : KeyEvent) : gset string :=
  match ev with
  | Down key =>
      match getDirectionFromKey key with
      | Some _ => {[key]} ∪ pressed
      | None => pressed
      end
  | Up key =>
      match getDirectionFromKey key with
      | Some _ => pressed ∖ {[key]}
      | None => pressed
      end
  end.

Definition emitted (pressed : gset string) (ev : KeyEvent) : list Intent :=
  let pressed' := next pressed ev in
  match ev with
  | Down key =>
      match getDirectionFromKey key with
      | Some direction =>
          if bool_decide ((key ∉ pressed) ∧ (key ∈ pressed')) then [Move direction] else []
      | None => []
      end
  | Up key =>
      if bool_decide ((pressed ≠ ∅) ∧ (pressed' = ∅)) then [Stop] else []
  end.

(** What each event of a sequence emits, in order. *)
Fixpoint each (pressed : gset string) (evs : list KeyEvent) : list (list Intent) :=
  match evs with
  | [] => []
  | ev :: rest => emitted pressed ev :: each (next pressed ev) rest
  end.

Definition intents (pressed : gset string) (evs : list KeyEvent) : list Intent :=
  concat (each pressed evs).

Fixpoint held (pressed : gset string) (evs : list KeyEvent) : gset string :=
  match evs with
  | [] => pressed
  | ev :: rest => held (next pressed ev) rest
  end.

(** The record an intent is sent as. *)
Definition wire (i : Intent) : JObject :=
  match i with
  | Move direction => [("action", JStr "move"); ("direction", JStr direction)]
  | Stop => [("action", JStr "stop")]
  end.

End KeySpec.

Definition key_input (ev : KeySpec.KeyEvent) : Input :=
  match ev with
  | KeySpec.Down key => KeyDown key
  | KeySpec.Up key => KeyUp key
  end.

(** The intents the input translator hands to the outbound channel: the
    invocations of [sendMoveCommand] and [sendStopCommand]. *)
Fixpoint intents_of (tr : list Event) : list KeySpec.Intent :=
  match tr with
  | [] => []
  | Call (m_sendMoveCommand direction) :: tr' => KeySpec.Move direction :: intents_of tr'
  | Call m_sendStopCommand :: tr' => KeySpec.Stop :: intents_of tr'
  | _ :: tr' => intents_of tr'
  end.

(** Key events, each at its clock reading, as inputs of the event loop. *)
Definition key_inputs (timed : list (Z * KeySpec.KeyEvent)) : list (Z * Input) :=
  map (fun tev => (fst tev, key_input (snd tev))) timed.

(** The records written for a list of intents: none unless the channel is
    open. *)
Definition written (st : GameClient) (intents : list KeySpec.Intent) : list JObject :=
  if ws_not_open st then [] else map KeySpec.wire intents.

(** All events of a session, in order. *)
Definition events_of (log : list (Z * list Event)) : list Event :=
  flat_map snd log.

(** ** Properties of methods

    [keeps R m]: the client after [m] is related by [R] to the client before,
    however [m] completes.  [emits P m]: every event of [m] satisfies [P]. *)

Definition keeps (R : relation GameClient) {A} (m : M A) : Prop :=
  forall st, R st (client (m st)).

Definition emits (P : Event -> Prop) {A} (m : M A) : Prop :=
  forall st, Forall P (trace (m st)).

(** [completes m]: [m] never throws. *)
Definition completes {A} (m : M A) : Prop :=
  forall st, exists a, completion (m st) = Normal a.

(** The relation "field [f] is unchanged". *)
Definition same {X} (f : GameClient -> X) : relation GameClient :=
  fun before after => f before = f after.

(** Events of the repaint proper: bubble entries and bubbles. *)
Definition of_bubbles (e : Event) : Prop :=
  match e with
  | Call (m_drawChatBubble _) | PaintBubble _ _ _ => True
  | _ => False
  end.


(** The relation "every overlay not yet expired at [now] is still there". *)
Definition live_kept (now : Z) : relation GameClient := fun before after =>
  chatDuration after = chatDuration before /\
  forall id chatData,
    chatMessages before !! id = Some chatData ->
    now - ChatData.timestamp chatData <= chatDuration before ->
    chatMessages after !! id = Some chatData.

(** The relation "every avatar loaded before is loaded after". *)
Definition loaded_kept : relation GameClient := fun before after =>
  forall avatarKey,
    is_Some (avatarImages before !! avatarKey) ->
    is_Some (avatarImages after !! avatarKey).

(** What the footstep cooldown reads and writes. *)
Definition footstep_state (st : GameClient) : Z * Z :=
  (lastFootstepTime st, footstepCooldown st).

(** A run at clock reading [now] either starts no footstep cue and leaves
    [lastFootstepTime] alone, or starts exactly one, a full cooldown after
    the previous [lastFootstepTime], and records [now]. *)
Definition pace (now : Z) (st : GameClient) {A} (r : Run A) : Prop :=
  footstepCooldown (client r) = footstepCooldown st /\
  ((cues (trace r) = 0%nat /\ lastFootstepTime (client r) = lastFootstepTime st) \/
   (cues (trace r) = 1%nat /\ lastFootstepTime (client r) = now /\
    lastFootstepTime st + footstepCooldown st <= now)).

Definition paced (now : Z) {A} (m : M A) : Prop :=
  forall st, 0 < footstepCooldown st -> pace now st (m st).

(** An event other than a footstep cue. *)
Definition quiet (e : Event) : Prop := is_footstep e = false.

(** A batch entry that is about the local player on the move. *)
Definition local_moving (st : GameClient) (entry : string * Player.t) : bool :=
  bool_decide (Some (fst entry) = myPlayerId st) && Player.isMoving (snd entry).

(** The batch entries of an input for which the footstep cue is attempted:
    those of a ['players_moved'] batch that are about the local player on
    the move. *)
Definition footstep_entries (st : GameClient) (i : Input) : list (string * Player.t) :=
  match i with
  | SocketMessage (Some message) =>
      match kind_of (Msg.action message), Msg.players message with
      | players_moved, Some batch => List.filter (local_moving st) batch
      | _, _ => []
      end
  | _ => []
  end.

(** An event other than an entry into [playFootstepSound]. *)
Definition no_attempt (e : Event) : Prop := is_call m_playFootstepSound e = false.

(** What the constructor fixes once and for all. *)
Definition settings (st : GameClient) : Q * Q * Z * Z :=
  (worldWidth st, worldHeight st, footstepCooldown st, chatDuration st).

(** The geometry the camera is computed from, and the player it follows. *)
Definition camera_inputs (st : GameClient) : option Player.t * (Q * Q) * (Q * Q) :=
  (myPlayer st, (canvas_width st, canvas_height st), (worldWidth st, worldHeight st)).

(** ** The end-to-end scenario of the specification

    A client with an 800 x 600 viewport joins as "p1" at (100, 100); a
    ['players_moved'] message then carries p1 at (1000, 1000), moving, and a
    second one arrives 50 ms later. *)
Module Scenario.

Definition p1 (x y : Q) (moving : bool) : Player.t :=
  Player.mk "p1" "Tim" x y "knight" "south" moving 0.

Definition knight : Avatar.t :=
  Avatar.mk "knight" [("south", ["s0.png"; "s1.png"]); ("north", ["n0.png"])].

Definition start : GameClient := constructor 800 600 true.

Definition joined : Msg.t :=
  Msg.mk (Some "join_game") (Some true) (Some "p1")
         (Some [("p1", p1 100 100 false)]) (Some [("knight", knight)])
         None None None None.

Definition moved : Msg.t :=
  Msg.mk (Some "players_moved") None None
         (Some [("p1", p1 1000 1000 true)]) None None None None None.

Definition hello : Msg.t :=
  Msg.mk (Some "chat") None (Some "p2") None None None None (Some "hello") None.




Definition t0 : Z := 1700000000000.

Definition inputs : list (Z * Input) :=
  [(t0, SocketOpen);
   (t0 + 100, SocketMessage (Some joined));
   (t0 + 1000, SocketMessage (Some moved));
   (t0 + 1050, SocketMessage (Some moved))].

End Scenario.

(** * The rest of the client

    The methods below are read from the source like the ones above.  They
    are not among the spied methods, so they leave no [Call] of their own in
    the trace; what they hand to the socket or to [draw] is recorded as
    before.  What a method paints is given as the list of canvas operations
    it performs. *)

From Stdlib Require Import Qround.

(** ** Pointer input *)

(** [Math.round]: the nearest integer, a tie going up. *)
Definition Math_round (q : Q) : Z := Qfloor (q + (1 # 2))%Q.

Definition clickMessage (x y : Q) : JObject :=
  [("action", JStr "move");
   ("x", JNum (inject_Z (Math_round x)));
   ("y", JNum (inject_Z (Math_round y)))].

Definition sendClickToMoveCommand (x y : Q) : M unit :=
  st ← get;
  if ws_not_open st then mret tt
  else ws_send (clickMessage x y).

(** [handleCanvasClick(event)]: [clientX], [clientY] are the event's
    coordinates and [rect_left], [rect_top] those of
    [canvas.getBoundingClientRect()]. *)
Definition handleCanvasClick (clientX clientY rect_left rect_top : Q) : M unit :=
  st ← get;
  let clickX := (clientX - rect_left)%Q in
  let clickY := (clientY - rect_top)%Q in
  let worldX := (clickX + cameraX st)%Q in
  let worldY := (clickY + cameraY st)%Q in
  sendClickToMoveCommand worldX worldY.

(** ** Viewport resize *)

Definition set_canvas_width (v : Q) (c : GameClient) : GameClient :=
  {| worldImage := worldImage c; worldWidth := worldWidth c;
     worldHeight := worldHeight c; canvas_width := v;
     canvas_height := canvas_height c; myPlayerId := myPlayerId c;
     myPlayer := myPlayer c; allPlayers := allPlayers c;
     avatars := avatars c; avatarImages := avatarImages c;
     cameraX := cameraX c; cameraY := cameraY c; ws := ws c;
     pressedKeys := pressedKeys c; isMoving := isMoving c;
     currentDirection := currentDirection c;
     sounds_footsteps := sounds_footsteps c;
     sounds_ambient := sounds_ambient c; soundEnabled := soundEnabled c;
     lastFootstepTime := lastFootstepTime c;
     footstepCooldown := footstepCooldown c;
     ambientSource := ambientSource c; chatMessages := chatMessages c;
     chatDuration := chatDuration c |}.

Definition set_canvas_height (v : Q) (c : GameClient) : GameClient :=
  {| worldImage := worldImage c; worldWidth := worldWidth c;
     worldHeight := worldHeight c; canvas_width := canvas_width c;
     canvas_height := v; myPlayerId := myPlayerId c; myPlayer := myPlayer c;
     allPlayers := allPlayers c; avatars := avatars c;
     avatarImages := avatarImages c; cameraX := cameraX c;
     cameraY := cameraY c; ws := ws c; pressedKeys := pressedKeys c;
     isMoving := isMoving c; currentDirection := currentDirection c;
     sounds_footsteps := sounds_footsteps c;
     sounds_ambient := sounds_ambient c; soundEnabled := soundEnabled c;
     lastFootstepTime := lastFootstepTime c;
     footstepCooldown := footstepCooldown c;
     ambientSource := ambientSource c; chatMessages := chatMessages c;
     chatDuration := chatDuration c |}.

(** The ['resize'] listener of [setupCanvas]. *)
Definition window_onresize (innerWidth innerHeight : Q) (now : Z) : M unit :=
  modify (set_canvas_width innerWidth) ;;
  modify (set_canvas_height innerHeight) ;;
  draw now.

(** ** Painting *)

Inductive CanvasOp :=
| ClearRect (x y w h : Q)
| DrawWorld (sx sy sw sh dx dy dw dh : Q)   (* [drawImage(this.worldImage, ...)] *)
| DrawSprite (img : string) (x y w h : Q)   (* [drawImage(avatarImg, ...)] *)
| FillRect (fillStyle : string) (x y w h : Q)
| StrokeRect (strokeStyle : string) (x y w h : Q)
| StrokeText (text : string) (x y : Q)
| FillText (text : string) (x y : Q).

(** [frames[i]] for an array [frames]: [undefined] off the array. *)
Definition array_at {X} (frames : list X) (i : Z) : option X :=
  if i <? 0 then None else nth_error frames (Z.to_nat i).

Definition drawAvatar (st : GameClient) (player : Player.t) : list CanvasOp :=
  match avatarImages st !! Player.avatar player with
  | None => []
  | Some avatarData =>
      match Map_get (Player.facing player) (AvatarData.frames avatarData) with
      | None => []
      | Some frames =>
          match array_at frames (Player.animationFrame player) with
          | None => []
          | Some avatarImg =>
              let screenX := (Player.x player - cameraX st)%Q in
              let screenY := (Player.y player - cameraY st)%Q in
              if Qlt_bool screenX (-50) || Qlt_bool (canvas_width st + 50) screenX
                 || Qlt_bool screenY (-50) || Qlt_bool (canvas_height st + 50) screenY
              then []
              else
                let avatarSize := 32%Q in
                let textX := screenX in
                let textY := (screenY - avatarSize - 5)%Q in
                [DrawSprite avatarImg (screenX - avatarSize / 2) (screenY - avatarSize)
                            avatarSize avatarSize;
                 StrokeText (Player.username player) textX textY;
                 FillText (Player.username player) textX textY]
          end
      end
  end.

(** [setupMiniMap]. *)
Definition miniMapCanvas_width : Q := 200.
Definition miniMapCanvas_height : Q := 200.

Definition miniMap_scale (st : GameClient) : Q :=
  Math_min (miniMapCanvas_width / worldWidth st) (miniMapCanvas_height / worldHeight st).

(** The dot [drawMiniMap] paints for one player. *)
Definition miniMap_dot (st : GameClient) (player : Player.t) : CanvasOp :=
  let scaledWidth := (worldWidth st * miniMap_scale st)%Q in
  let scaledHeight := (worldHeight st * miniMap_scale st)%Q in
  let miniMapX := (Player.x player / worldWidth st * scaledWidth)%Q in
  let miniMapY := (Player.y player / worldHeight st * scaledHeight)%Q in
  if bool_decide (Some (Player.id player) = myPlayerId st)
  then FillRect "#00ff00" (miniMapX - 2) (miniMapY - 2) 4 4
  else FillRect "#ff0000" (miniMapX - 1) (miniMapY - 1) 2 2.

Definition drawMiniMap (st : GameClient) : list CanvasOp :=
  if negb (worldImage st) then []
  else
    let scale := miniMap_scale st in
    let scaledWidth := (worldWidth st * scale)%Q in
    let scaledHeight := (worldHeight st * scale)%Q in
    let viewportX := (cameraX st / worldWidth st * scaledWidth)%Q in
    let viewportY := (cameraY st / worldHeight st * scaledHeight)%Q in
    let viewportWidth := (canvas_width st / worldWidth st * scaledWidth)%Q in
    let viewportHeight := (canvas_height st / worldHeight st * scaledHeight)%Q in
    [ClearRect 0 0 miniMapCanvas_width miniMapCanvas_height;
     DrawWorld 0 0 (worldWidth st) (worldHeight st) 0 0 scaledWidth scaledHeight]
    ++ map (fun kv => miniMap_dot st (snd kv)) (allPlayers st)
    ++ [StrokeRect "#ffff00" viewportX viewportY viewportWidth viewportHeight].

(** ** Invariants and guards *)

(** The relation "if [I] held before, it holds after". *)
Definition preserving (I : GameClient -> Prop) : relation GameClient :=
  fun before after => I before -> I after.

(** [guarded G P m]: started where [G] holds, [m] emits only events
    satisfying [P] and ends where [G] holds. *)
Definition guarded (G : GameClient -> Prop) (P : Event -> Prop) {A} (m : M A) : Prop :=
  forall st, G st -> Forall P (trace (m st)) /\ G (client (m st)).

Definition is_send (e : Event) : bool :=
  match e with WsSend _ => true | _ => false end.

(** The socket is not open; an event other than a write to the socket. *)
Definition closed (st : GameClient) : Prop := ws_not_open st = true.
Definition no_send (e : Event) : Prop := is_send e = false.

Definition is_audio (e : Event) : bool :=
  match e with AudioStart _ => true | _ => false end.

(** Sound is switched off; an event other than the start of a sound. *)
Definition sound_off (st : GameClient) : Prop := soundEnabled st = false.
Definition no_audio (e : Event) : Prop := is_audio e = false.


(** The pressed set holds movement keys only, and [isMoving] and
    [currentDirection] say whether it is empty. *)
Definition keys_consistent (st : GameClient) : Prop :=
  (forall key, key ∈ pressedKeys st -> is_Some (getDirectionFromKey key)) /\
  (pressedKeys st = ∅ -> isMoving st = false /\ currentDirection st = None) /\
  (pressedKeys st <> ∅ -> isMoving st = true /\ is_Some (currentDirection st)).


(** The overlay is past its time at [now]. *)
Definition expired (st : GameClient) (now : Z) (chatData : ChatData.t) : bool :=
  now - ChatData.timestamp chatData >? chatDuration st.

(** The relation "every cached avatar is still cached, with the same images". *)
Definition cache_kept : relation GameClient := fun before after =>
  forall avatarKey avatarData,
    avatarImages before !! avatarKey = Some avatarData ->
    avatarImages after !! avatarKey = Some avatarData.


(** The geometry a bubble is placed with. *)
Definition bubble_frame (st : GameClient) : Q * Q * (Q * Q) * Z :=
  (cameraX st, cameraY st, (canvas_width st, canvas_height st), chatDuration st).

(** A painted bubble shows the overlay, still live at [now], of a stored
    player, at that player's place on screen, no further than 100 off the
    canvas. *)
Definition bubble_of_live (st : GameClient) (now : Z) (e : Event) : Prop :=
  match e with
  | PaintBubble text screenX textY =>
      exists player chatData,
        In player (map snd (allPlayers st)) /\
        chatMessages st !! Player.id player = Some chatData /\
        ChatData.message chatData = text /\
        now - ChatData.timestamp chatData <= chatDuration st /\
        screenX = (Player.x player - cameraX st)%Q /\
        textY = (Player.y player - cameraY st - 60 + 20)%Q /\
        (-100 <= screenX <= canvas_width st + 100)%Q /\
        (-100 <= Player.y player - cameraY st <= canvas_height st + 100)%Q
  | _ => True
  end.



(** The world as the client knows it, and the state of the input side. *)
Definition world (st : GameClient) :=
  (myPlayerId st, myPlayer st, allPlayers st, avatars st, avatarImages st,
   (cameraX st, cameraY st)).

Definition input_state (st : GameClient) :=
  (pressedKeys st, isMoving st, currentDirection st, ws st).



(** An inbound message the client has no use for: text that is not JSON, or
    a message of no recognised kind. *)
Definition junk (parsed : option Msg.t) : Prop :=
  match parsed with
  | Some m => kind_of (Msg.action m) = unrecognised
  | None => True
  end.

(** The four movement keys. *)
Definition arrows : gset string :=
  {[ "ArrowUp"; "ArrowDown"; "ArrowLeft"; "ArrowRight" ]}.

(** ** More inputs to try things on *)
Module Cases.

Definition mage : Avatar.t :=
  Avatar.mk "mage" [("south", ["m0.png"; "m1.png"]); ("east", ["m2.png"])].

Definition ann (x y : Q) : Player.t :=
  Player.mk "p2" "Ann" x y "mage" "south" false 1.



Definition rumour : Msg.t :=
  Msg.mk (Some "weather") None None None None None None None None.


Definition typing : list (Z * Input) :=
  [(0, KeyDown "ArrowUp"); (1, KeyDown "a"); (2, KeyDown "ArrowLeft")].

(** The client of the scenario once it has joined and moved. *)
Definition playing : GameClient := after (firstn 3 Scenario.inputs) Scenario.start.


End Cases.

(** * Reasoning about runs *)

Section Runs.
Context {A B : Type}.

Lemma run_bind (m : M A) (k : A -> M B) (st : GameClient) :
  (m ≫= k) st =
  match completion (m st) with
  | Normal a =>
      mkRun (completion (k a (client (m st)))) (client (k a (client (m st))))
            (trace (m st) ++ trace (k a (client (m st))))
  | Thrown e => mkRun (Thrown e) (client (m st)) (trace (m st))
  end.
Proof. reflexivity. Qed.

Lemma ret_bind (a : A) (k : A -> M B) (st : GameClient) :
  (mret a ≫= k) st = k a st.
Proof. rewrite run_bind. simpl. destruct (k a st). reflexivity. Qed.

End Runs.

(** ** Methods that keep a relation *)

Section Keeps.
Context (R : relation GameClient) `{!PreOrder R}.

Lemma keeps_ret {A} (a : A) : keeps R (mret a).
Proof. intros st. simpl. reflexivity. Qed.

Lemma keeps_get : keeps R get.
Proof. intros st. simpl. reflexivity. Qed.

Lemma keeps_emit (e : Event) : keeps R (emit e).
Proof. intros st. simpl. reflexivity. Qed.

Lemma keeps_enter (m : Method) : keeps R (enter m).
Proof. apply keeps_emit. Qed.

Lemma keeps_throw {A} (e : Exn) : keeps R (@throw A e).
Proof. intros st. simpl. reflexivity. Qed.

Lemma keeps_modify (f : GameClient -> GameClient) :
  (forall st, R st (f st)) -> keeps R (modify f).
Proof. intros H st. apply H. Qed.

Lemma keeps_bind {A B} (m : M A) (k : A -> M B) :
  keeps R m -> (forall a, keeps R (k a)) -> keeps R (m ≫= k).
Proof.
  intros Hm Hk st. rewrite run_bind.
  destruct (completion (m st)) as [a|e]; simpl.
  - transitivity (client (m st)); [apply Hm | apply Hk].
  - apply Hm.
Qed.

Lemma keeps_try_catch {A} (body : M A) (handler : Exn -> M A) :
  keeps R body -> (forall e, keeps R (handler e)) -> keeps R (try_catch body handler).
Proof.
  intros Hb Hh st. unfold try_catch.
  destruct (completion (body st)) as [a|e]; simpl.
  - apply Hb.
  - transitivity (client (body st)); [apply Hb | apply Hh].
Qed.

Lemma keeps_forEach {A} (f : A -> M unit) (xs : list A) :
  (forall x, keeps R (f x)) -> keeps R (forEach f xs).
Proof.
  intros Hf. induction xs as [|x xs IH]; simpl.
  - apply keeps_ret.
  - apply keeps_bind; auto.
Qed.

Lemma keeps_Object_entries {A} (o : option (list (string * A))) :
  keeps R (Object_entries o).
Proof. destruct o; [apply keeps_ret | apply keeps_throw]. Qed.

Lemma keeps_property_of {A B} (o : option A) (prop : A -> B) :
  keeps R (property_of o prop).
Proof. destruct o; [apply keeps_ret | apply keeps_throw]. Qed.

End Keeps.

(** ** Methods whose events all satisfy a predicate *)

Section Emits.
Context (P : Event -> Prop).

Lemma emits_ret {A} (a : A) : emits P (mret a).
Proof. intros st. constructor. Qed.

Lemma emits_get : emits P get.
Proof. intros st. constructor. Qed.

Lemma emits_modify (f : GameClient -> GameClient) : emits P (modify f).
Proof. intros st. constructor. Qed.

Lemma emits_throw {A} (e : Exn) : emits P (@throw A e).
Proof. intros st. constructor. Qed.

Lemma emits_emit (e : Event) : P e -> emits P (emit e).
Proof. intros H st. simpl. auto. Qed.

Lemma emits_enter (m : Method) : P (Call m) -> emits P (enter m).
Proof. apply emits_emit. Qed.

Lemma emits_bind {A B} (m : M A) (k : A -> M B) :
  emits P m -> (forall a, emits P (k a)) -> emits P (m ≫= k).
Proof.
  intros Hm Hk st. rewrite run_bind.
  destruct (completion (m st)) as [a|e]; simpl.
  - apply Forall_app. split; [apply Hm | apply Hk].
  - apply Hm.
Qed.

Lemma emits_try_catch {A} (body : M A) (handler : Exn -> M A) :
  emits P body -> (forall e, emits P (handler e)) -> emits P (try_catch body handler).
Proof.
  intros Hb Hh st. unfold try_catch.
  destruct (completion (body st)) as [a|e]; simpl.
  - apply Hb.
  - apply Forall_app. split; [apply Hb | apply Hh].
Qed.

Lemma emits_forEach {A} (f : A -> M unit) (xs : list A) :
  (forall x, emits P (f x)) -> emits P (forEach f xs).
Proof.
  intros Hf. induction xs as [|x xs IH]; simpl.
  - apply emits_ret.
  - apply emits_bind; auto.
Qed.

Lemma emits_Object_entries {A} (o : option (list (string * A))) :
  emits P (Object_entries o).
Proof. destruct o; [apply emits_ret | apply emits_throw]. Qed.

Lemma emits_property_of {A B} (o : option A) (prop : A -> B) :
  emits P (property_of o prop).
Proof. destruct o; [apply emits_ret | apply emits_throw]. Qed.

End Emits.

(** One step of a [keeps] or [emits] goal: follow the shape of the method. *)
Ltac kapply lem :=
  first [ simple apply lem; [typeclasses eauto | ..] | simple apply lem ].

Ltac method_step :=
  match goal with
  | |- keeps _ (@mbind M _ _ _ _ _) => kapply keeps_bind; [| intros ?]
  | |- keeps _ (@mret M _ _ _) => kapply keeps_ret
  | |- keeps _ get => kapply keeps_get
  | |- keeps _ (emit _) => kapply keeps_emit
  | |- keeps _ (enter _) => kapply keeps_enter
  | |- keeps _ (throw _) => kapply keeps_throw
  | |- keeps _ (Object_entries _) => kapply keeps_Object_entries
  | |- keeps _ (property_of _ _) => kapply keeps_property_of
  | |- keeps _ (forEach _ _) => kapply keeps_forEach; intros ?
  | |- keeps _ (try_catch _ _) => kapply keeps_try_catch; [| intros ?]
  | |- keeps _ (modify _) => kapply keeps_modify; intros ?
  | |- emits _ (@mbind M _ _ _ _ _) => apply emits_bind; [| intros ?]
  | |- emits _ (@mret M _ _ _) => apply emits_ret
  | |- emits _ get => apply emits_get
  | |- emits _ (modify _) => apply emits_modify
  | |- emits _ (throw _) => apply emits_throw
  | |- emits _ (Object_entries _) => apply emits_Object_entries
  | |- emits _ (property_of _ _) => apply emits_property_of
  | |- emits _ (forEach _ _) => apply emits_forEach; intros ?
  | |- emits _ (try_catch _ _) => apply emits_try_catch; [| intros ?]
  | |- emits _ (emit _) => apply emits_emit
  | |- emits _ (enter _) => apply emits_enter
  | |- _ (if ?b then _ else _) => destruct b
  | |- _ (match ?x with _ => _ end) => destruct x
  | |- _ (let '(_, _) := ?x in _) => destruct x
  end.
(** ** Frame facts: what a method leaves alone *)

#[global] Instance same_preorder {X} (f : GameClient -> X) : PreOrder (same f).
Proof.
  split.
  - intros st. reflexivity.
  - intros a b c Hab Hbc. unfold same in *. congruence.
Qed.

(** Follow a method's shape down to its assignments; an assignment to
    another field closes by computation. *)
Ltac frame :=
  repeat first
    [ method_step
    | progress unfold draw, drawChatBubble, liveChatData, updateCamera,
        playFootstepSound, playAmbientSound, stopAmbientSound, movePlayer,
        loadAvatarImages, loadAvatarImage, joinGame, ws_send,
        sendMoveCommand, sendStopCommand
    | reflexivity ].

Lemma loadFrames_keeps (R : relation GameClient) `{!PreOrder R} (frames : list string) :
  keeps R (loadFrames frames).
Proof. induction frames; simpl; repeat method_step; auto. Qed.

Lemma loadDirections_keeps (R : relation GameClient) `{!PreOrder R}
    (entries : list (string * list string)) (acc : list (string * list string)) :
  keeps R (loadDirections entries acc).
Proof.
  revert acc. induction entries as [|[d fs] rest IH]; intros acc; simpl.
  - kapply keeps_ret.
  - kapply keeps_bind; [apply loadFrames_keeps; assumption | intros; apply IH].
Qed.

Lemma loadFrames_emits (P : Event -> Prop) (frames : list string) :
  (forall src, P (ImageFetch src)) -> emits P (loadFrames frames).
Proof. intros HP. induction frames; simpl; repeat method_step; auto. Qed.

Lemma loadDirections_emits (P : Event -> Prop)
    (entries acc : list (string * list string)) :
  (forall src, P (ImageFetch src)) -> emits P (loadDirections entries acc).
Proof.
  intros HP. revert acc. induction entries as [|[d fs] rest IH]; intros acc; simpl.
  - apply emits_ret.
  - apply emits_bind; [apply loadFrames_emits; assumption | intros; apply IH].
Qed.

(** As [frame], through every callback, with [fin] for the assignments. *)
Ltac frame_with fin :=
  repeat first
    [ method_step
    | kapply loadDirections_keeps
    | progress unfold dispatch, ws_onopen, ws_onclose, ws_onmessage,
        handleServerMessage, sendChatMessage, handleKeyDown, handleKeyUp,
        draw, drawChatBubble, liveChatData, updateCamera,
        playFootstepSound, playAmbientSound, stopAmbientSound, movePlayer,
        loadAvatarImages, loadAvatarImage, joinGame, ws_send,
        sendMoveCommand, sendStopCommand
    | fin ].

Lemma draw_keeps_myPlayer (now : Z) : keeps (same myPlayer) (draw now).
Proof. frame. Qed.

Lemma draw_keeps_cameraX (now : Z) : keeps (same cameraX) (draw now).
Proof. frame. Qed.

Lemma draw_keeps_cameraY (now : Z) : keeps (same cameraY) (draw now).
Proof. frame. Qed.

Lemma draw_keeps_allPlayers (now : Z) : keeps (same allPlayers) (draw now).
Proof. frame. Qed.

Lemma movePlayers_keep_camera_inputs (now : Z) (batch : list (string * Player.t)) :
  keeps (same camera_inputs) (forEach (movePlayer now) batch).
Proof. frame. Qed.

(** ** Methods that never throw *)

Lemma completes_ret {A} (a : A) : completes (mret a : M A).
Proof. intros st. exists a. reflexivity. Qed.

Lemma completes_get : completes get.
Proof. intros st. exists st. reflexivity. Qed.

Lemma completes_modify (f : GameClient -> GameClient) : completes (modify f).
Proof. intros st. exists tt. reflexivity. Qed.

Lemma completes_emit (e : Event) : completes (emit e).
Proof. intros st. exists tt. reflexivity. Qed.

Lemma completes_bind {A B} (m : M A) (k : A -> M B) :
  completes m -> (forall a, completes (k a)) -> completes (m ≫= k).
Proof.
  intros Hm Hk st. rewrite run_bind.
  destruct (Hm st) as [a Ha]. rewrite Ha. simpl. apply Hk.
Qed.

Lemma completes_forEach {A} (f : A -> M unit) (xs : list A) :
  (forall x, completes (f x)) -> completes (forEach f xs).
Proof.
  intros Hf. induction xs as [|x xs IH]; simpl.
  - apply completes_ret.
  - apply completes_bind; auto.
Qed.

Lemma completes_try_catch {A} (body : M A) (handler : Exn -> M A) :
  (forall e, completes (handler e)) -> completes (try_catch body handler).
Proof.
  intros Hh st. unfold try_catch.
  destruct (completion (body st)) as [a|e] eqn:E; simpl.
  - exists a. exact E.
  - apply Hh.
Qed.

Lemma completes_unit (m : M unit) (st : GameClient) :
  completes m -> completion (m st) = Normal tt.
Proof. intros H. destruct (H st) as [[] E]. exact E. Qed.

(** Sequencing after a method that cannot throw. *)
Lemma seq_run {B} (m : M unit) (k : unit -> M B) (st : GameClient) :
  completes m ->
  (m ≫= k) st =
  mkRun (completion (k tt (client (m st)))) (client (k tt (client (m st))))
        (trace (m st) ++ trace (k tt (client (m st)))).
Proof. intros H. rewrite run_bind, (completes_unit m st H). reflexivity. Qed.

Ltac total :=
  repeat first
    [ match goal with
      | |- completes (@mbind M _ _ _ _ _) => apply completes_bind; [| intros ?]
      | |- completes (@mret M _ _ _) => apply completes_ret
      | |- completes get => apply completes_get
      | |- completes (modify _) => apply completes_modify
      | |- completes (emit _) => apply completes_emit
      | |- completes (enter _) => apply completes_emit
      | |- completes (forEach _ _) => apply completes_forEach; intros ?
      | |- completes (try_catch _ _) => apply completes_try_catch; intros ?
      | |- completes (if ?b then _ else _) => destruct b
      | |- completes (match ?x with _ => _ end) => destruct x
      | |- completes (let '(_, _) := ?x in _) => destruct x
      end
    | progress unfold draw, drawChatBubble, liveChatData, updateCamera,
        playFootstepSound, playAmbientSound, stopAmbientSound, movePlayer ].

Lemma draw_completes (now : Z) : completes (draw now).
Proof. total. Qed.

Lemma updateCamera_completes : completes updateCamera.
Proof. total. Qed.

Lemma movePlayer_completes (now : Z) (entry : string * Player.t) :
  completes (movePlayer now entry).
Proof. total. Qed.

Lemma movePlayers_complete (now : Z) (batch : list (string * Player.t)) :
  completes (forEach (movePlayer now) batch).
Proof. total. Qed.

(** ** Counting invocations *)

Lemma calls_app (m : Method) (tr1 tr2 : list Event) :
  calls m (tr1 ++ tr2) = (calls m tr1 + calls m tr2)%nat.
Proof. unfold calls. rewrite List.filter_app, length_app. reflexivity. Qed.

Lemma calls_cons (m : Method) (e : Event) (tr : list Event) :
  calls m (e :: tr) = ((if is_call m e then 1 else 0) + calls m tr)%nat.
Proof. unfold calls. simpl. destruct (is_call m e); reflexivity. Qed.

Lemma calls_none (m : Method) (tr : list Event) :
  Forall (fun e => is_call m e = false) tr -> calls m tr = 0%nat.
Proof.
  induction 1 as [|e tr He _ IH]; [reflexivity|].
  rewrite calls_cons, He, IH. reflexivity.
Qed.

Lemma bubbles_emits (now : Z) (players : list (string * Player.t)) :
  emits of_bubbles (forEach (fun kv => drawChatBubble (snd kv) now) players).
Proof.
  repeat first [ method_step | progress unfold drawChatBubble, liveChatData | exact I ].
Qed.


(** A repaint is its own entry followed by bubble events. *)
Lemma draw_trace (now : Z) (st : GameClient) :
  exists painted,
    trace (draw now st) = Call m_draw :: painted /\ Forall of_bubbles painted.
Proof.
  unfold draw. rewrite !run_bind. simpl.
  destruct (worldImage st); simpl.
  - eexists. split; [reflexivity|]. apply bubbles_emits.
  - exists []. split; [reflexivity | constructor].
Qed.
(** ** Camera *)

Lemma clamp_range (v hi : Q) :
  (0 <= Math_max 0 (Math_min v hi) <= Qmax 0 hi)%Q.
Proof.
  unfold Math_max, Math_min.
  destruct (Q.max_spec 0 (Qmin v hi)) as [[? E1]|[? E1]];
  destruct (Q.min_spec v hi) as [[? E2]|[? E2]];
  destruct (Q.max_spec 0 hi) as [[? E3]|[? E3]];
  rewrite E1, ?E2, E3; lra.
Qed.

Lemma clamp_inside (v hi : Q) :
  (0 <= v <= Qmax 0 hi)%Q -> (Math_max 0 (Math_min v hi) == v)%Q.
Proof.
  unfold Math_max, Math_min.
  destruct (Q.max_spec 0 (Qmin v hi)) as [[? E1]|[? E1]];
  destruct (Q.min_spec v hi) as [[? E2]|[? E2]];
  destruct (Q.max_spec 0 hi) as [[? E3]|[? E3]];
  rewrite E1, ?E2, E3 in *; lra.
Qed.

(** What [updateCamera] does when the local player is known. *)
Lemma updateCamera_run (st : GameClient) (p : Player.t) :
  myPlayer st = Some p ->
  updateCamera st =
  mkRun (Normal tt)
    (set_cameraY
       (Math_max 0 (Math_min (Player.y p - canvas_height st / 2)
                             (worldHeight st - canvas_height st)))
       (set_cameraX
          (Math_max 0 (Math_min (Player.x p - canvas_width st / 2)
                                (worldWidth st - canvas_width st))) st))
    [Call m_updateCamera].
Proof.
  intros H. unfold updateCamera. rewrite !run_bind. simpl. rewrite H. reflexivity.
Qed.

Lemma updateCamera_idle (st : GameClient) :
  myPlayer st = None ->
  updateCamera st = mkRun (Normal tt) st [Call m_updateCamera].
Proof.
  intros H. unfold updateCamera. rewrite !run_bind. simpl. rewrite H. reflexivity.
Qed.

(** C4.  Whatever the local player's position, the viewport and the world
    size, [updateCamera] completes and leaves each camera coordinate between
    0 and [max 0 (world - viewport)] (0 where the world is the smaller), and
    exactly at [player - viewport / 2] whenever that value lies in that
    range. *)
Theorem updateCamera_clamps (st : GameClient) (p : Player.t) :
  myPlayer st = Some p ->
  let r := updateCamera st in
  let centreX := (Player.x p - canvas_width st / 2)%Q in
  let centreY := (Player.y p - canvas_height st / 2)%Q in
  let maxX := Qmax 0 (worldWidth st - canvas_width st) in
  let maxY := Qmax 0 (worldHeight st - canvas_height st) in
  completion r = Normal tt /\
  (0 <= cameraX (client r) <= maxX)%Q /\
  (0 <= cameraY (client r) <= maxY)%Q /\
  ((worldWidth st < canvas_width st)%Q -> (cameraX (client r) == 0)%Q) /\
  ((worldHeight st < canvas_height st)%Q -> (cameraY (client r) == 0)%Q) /\
  ((0 <= centreX <= maxX)%Q -> (cameraX (client r) == centreX)%Q) /\
  ((0 <= centreY <= maxY)%Q -> (cameraY (client r) == centreY)%Q).
Proof.
  intros H. rewrite (updateCamera_run st p H). cbn -[Qmax Math_max Math_min Qdiv Qminus].
  pose proof (clamp_range (Player.x p - canvas_width st / 2) (worldWidth st - canvas_width st)) as HX.
  pose proof (clamp_range (Player.y p - canvas_height st / 2) (worldHeight st - canvas_height st)) as HY.
  repeat split; try apply HX; try apply HY; try (apply clamp_inside; assumption).
  - intros Hlt. destruct (Q.max_spec 0 (worldWidth st - canvas_width st)) as [[? E]|[? E]];
      rewrite E in HX; lra.
  - intros Hlt. destruct (Q.max_spec 0 (worldHeight st - canvas_height st)) as [[? E]|[? E]];
      rewrite E in HY; lra.
Qed.

Lemma updateCamera_clamps_witness :
  let st := set_myPlayer (Some (Scenario.p1 1000 1000 true)) Scenario.start in
  myPlayer st = Some (Scenario.p1 1000 1000 true) /\
  (cameraX (client (updateCamera st)) == 600)%Q /\
  (cameraY (client (updateCamera st)) == 700)%Q.
Proof.
  cbv zeta. split; [reflexivity|].
  destruct (updateCamera_clamps
              (set_myPlayer (Some (Scenario.p1 1000 1000 true)) Scenario.start)
              (Scenario.p1 1000 1000 true) eq_refl)
    as (_ & _ & _ & _ & _ & HX & HY).
  split.
  - rewrite HX; [reflexivity | vm_compute; split; discriminate].
  - rewrite HY; [reflexivity | vm_compute; split; discriminate].
Defined.

(** ** The entity store *)

Section JSMapFacts.
Context {V : Type}.
Implicit Types (m : list (string * V)) (k : string) (v : V).

Lemma Map_get_set_eq m k v : Map_get k (Map_set k v m) = Some v.
Proof.
  induction m as [|[k' v'] m IH]; simpl.
  - rewrite String.eqb_refl. reflexivity.
  - destruct (String.eqb k k') eqn:E; simpl; rewrite E; [reflexivity | exact IH].
Qed.

Lemma Map_get_set_ne m k k' v : k <> k' -> Map_get k (Map_set k' v m) = Map_get k m.
Proof.
  intros Hne. apply String.eqb_neq in Hne.
  induction m as [|[k'' v''] m IH]; simpl.
  - rewrite Hne. reflexivity.
  - destruct (String.eqb k' k'') eqn:E; simpl.
    + apply String.eqb_eq in E. subst k''. rewrite Hne. reflexivity.
    + destruct (String.eqb k k''); [reflexivity | exact IH].
Qed.

End JSMapFacts.

(** The last record a batch carries for [k], if any. *)
Lemma movePlayers_store (now : Z) (batch : list (string * Player.t)) (st : GameClient)
    (k : string) :
  Map_get k (allPlayers (client (forEach (movePlayer now) batch st)))
  = match Map_get k (rev batch) with
    | Some p => Some p
    | None => Map_get k (allPlayers st)
    end.
Proof.
  revert st. induction batch as [|[k' p'] batch IH]; intros st; [reflexivity|].
  cbn [forEach]. rewrite (seq_run _ _ _ (movePlayer_completes now (k', p'))).
  cbn [client]. rewrite IH.
  assert (Hst : allPlayers (client (movePlayer now (k', p') st))
                = Map_set k' p' (allPlayers st)).
  { transitivity (allPlayers (set_allPlayers (Map_set k' p' (allPlayers st)) st));
      [|reflexivity].
    unfold movePlayer. rewrite !run_bind. cbn [completion client trace modify get].
    match goal with |- context [if ?b then _ else _] => destruct b end; [|reflexivity].
    symmetry. apply (ltac:(frame) : keeps (same allPlayers) (playFootstepSound now)). }
  rewrite Hst. cbn [rev].
  assert (Happ : forall (l1 l2 : list (string * Player.t)),
            Map_get k (l1 ++ l2)
            = match Map_get k l1 with Some p => Some p | None => Map_get k l2 end).
  { intros l1 l2. induction l1 as [|[k1 p1] l1 IH1]; simpl; [reflexivity|].
    destruct (String.eqb k k1); [reflexivity | exact IH1]. }
  rewrite Happ. destruct (Map_get k (rev batch)) as [p|]; [reflexivity|].
  cbn [Map_get]. destruct (String.eqb k k') eqn:E.
  - apply String.eqb_eq in E. subst k'. apply Map_get_set_eq.
  - apply String.eqb_neq in E. apply Map_get_set_ne. exact E.
Qed.

(** ** Position batches *)

(** The shape of handling a ['players_moved'] message that carries a batch. *)
Lemma players_moved_run (st : GameClient) (m : Msg.t) (now : Z)
    (batch : list (string * Player.t)) :
  kind_of (Msg.action m) = players_moved ->
  Msg.players m = Some batch ->
  let applied := forEach (movePlayer now) batch st in
  let framed := updateCamera (client applied) in
  let drawn := draw now (client framed) in
  handleServerMessage m now st =
  mkRun (Normal tt) (client drawn)
        (Call m_handleServerMessage :: trace applied ++ trace framed ++ trace drawn).
Proof.
  intros Hk Hb. cbv zeta. unfold handleServerMessage. rewrite Hk, Hb.
  rewrite run_bind. cbn [completion client trace enter emit].
  rewrite run_bind. cbn [Object_entries mret M_ret completion client trace].
  rewrite (seq_run _ _ _ (movePlayers_complete now batch)).
  rewrite (seq_run _ _ _ updateCamera_completes).
  cbn [completion client trace].
  rewrite (completes_unit _ _ (draw_completes now)). reflexivity.
Qed.

Lemma updateCamera_trace (st : GameClient) :
  trace (updateCamera st) = [Call m_updateCamera].
Proof.
  destruct (myPlayer st) as [p|] eqn:E.
  - rewrite (updateCamera_run st p E). reflexivity.
  - rewrite (updateCamera_idle st E). reflexivity.
Qed.

Lemma of_bubbles_not_call (m : Method) (tr : list Event) :
  (forall id, m <> m_drawChatBubble id) ->
  Forall of_bubbles tr -> calls m tr = 0%nat.
Proof.
  intros Hm H. apply calls_none. eapply Forall_impl; [exact H|].
  intros [[]| | | | | |] Hb; simpl in *; try contradiction; try reflexivity.
  apply bool_decide_eq_false. intros E. eapply Hm. symmetry. exact E.
Qed.




(** ** The camera and the local player's record *)

(** After a ['players_moved'] batch the entity store holds, for every
    identifier, the last record the batch carries for it; [myPlayer] is the
    record it was before the message, and the camera is the clamped centre
    on that one: the batch rebinds entries of [allPlayers] and never
    [myPlayer]. *)
Lemma players_moved_camera (st : GameClient) (m : Msg.t) (now : Z)
    (batch : list (string * Player.t)) (p : Player.t) :
  kind_of (Msg.action m) = players_moved ->
  Msg.players m = Some batch ->
  myPlayer st = Some p ->
  let st' := client (handleServerMessage m now st) in
  (forall k, Map_get k (allPlayers st')
             = match Map_get k (rev batch) with
               | Some p' => Some p'
               | None => Map_get k (allPlayers st)
               end) /\
  myPlayer st' = Some p /\
  cameraX st' = Math_max 0 (Math_min (Player.x p - canvas_width st / 2)
                                     (worldWidth st - canvas_width st)) /\
  cameraY st' = Math_max 0 (Math_min (Player.y p - canvas_height st / 2)
                                     (worldHeight st - canvas_height st)).
Proof.
  intros Hk Hb Hp. cbv zeta. rewrite (players_moved_run st m now batch Hk Hb).
  cbv zeta. cbn [client].
  pose proof (movePlayers_keep_camera_inputs now batch st) as Hin.
  unfold same, camera_inputs in Hin.
  set (applied := client (forEach (movePlayer now) batch st)) in *.
  injection Hin as Hm Hcw Hch Hww Hwh.
  assert (Hp' : myPlayer applied = Some p) by congruence.
  split.
  { intros k. rewrite <- (draw_keeps_allPlayers now (client (updateCamera applied))).
    rewrite <- ((ltac:(frame) : keeps (same allPlayers) updateCamera) applied).
    apply movePlayers_store. }
  rewrite <- (draw_keeps_myPlayer now (client (updateCamera applied))).
  rewrite <- (draw_keeps_cameraX now (client (updateCamera applied))).
  rewrite <- (draw_keeps_cameraY now (client (updateCamera applied))).
  rewrite (updateCamera_run applied p Hp'). cbn [client].
  rewrite Hcw, Hch, Hww, Hwh. auto.
Qed.

(** C1.  In the specification's scenario the client joins as p1 at
    (100, 100) and a ['players_moved'] batch then carries p1 at (1000, 1000):
    the entity store holds the new record, [myPlayer] still holds the record
    of the join, and the camera stays at (0, 0) instead of (600, 700). *)
Theorem camera_keeps_join_position :
  let st := after [(Scenario.t0, SocketOpen);
                   (Scenario.t0 + 100, SocketMessage (Some Scenario.joined));
                   (Scenario.t0 + 1000, SocketMessage (Some Scenario.moved))]
                  Scenario.start in
  myPlayerId st = Some "p1" /\
  Map_get "p1" (allPlayers st) = Some (Scenario.p1 1000 1000 true) /\
  myPlayer st = Some (Scenario.p1 100 100 false) /\
  (cameraX st == 0)%Q /\ (cameraY st == 0)%Q /\
  ~ (cameraX st == 600)%Q /\ ~ (cameraY st == 700)%Q.
Proof.
  vm_compute. repeat split; try reflexivity; discriminate.
Qed.

(** ** Overlays *)

#[global] Instance live_kept_preorder (now : Z) : PreOrder (live_kept now).
Proof.
  split.
  - intros st. split; auto.
  - intros a b c [Hd1 H1] [Hd2 H2]. split; [congruence|].
    intros id cd Hl Hn. apply H2; [apply H1; assumption | rewrite Hd1; assumption].
Qed.

(** The read of an overlay, case by case. *)
Lemma liveChatData_absent (st : GameClient) (id : string) (now : Z) :
  chatMessages st !! id = None ->
  liveChatData id now st = mkRun (Normal None) st [].
Proof. intros H. unfold liveChatData. rewrite run_bind. simpl. rewrite H. reflexivity. Qed.

Lemma liveChatData_live (st : GameClient) (id : string) (now : Z) (chatData : ChatData.t) :
  chatMessages st !! id = Some chatData ->
  now - ChatData.timestamp chatData <= chatDuration st ->
  liveChatData id now st = mkRun (Normal (Some chatData)) st [].
Proof.
  intros H Hn. unfold liveChatData. rewrite run_bind. simpl. rewrite H.
  destruct (Z.gtb_spec (now - ChatData.timestamp chatData) (chatDuration st)); [lia|].
  reflexivity.
Qed.

Lemma liveChatData_expired (st : GameClient) (id : string) (now : Z) (chatData : ChatData.t) :
  chatMessages st !! id = Some chatData ->
  chatDuration st < now - ChatData.timestamp chatData ->
  liveChatData id now st =
  mkRun (Normal None) (set_chatMessages (delete id (chatMessages st)) st) [].
Proof.
  intros H Hn. unfold liveChatData. rewrite run_bind. simpl. rewrite H.
  destruct (Z.gtb_spec (now - ChatData.timestamp chatData) (chatDuration st)); [|lia].
  reflexivity.
Qed.

Lemma liveChatData_keeps_live (id : string) (now : Z) :
  keeps (live_kept now) (liveChatData id now).
Proof.
  intros st. destruct (chatMessages st !! id) as [cd|] eqn:E.
  - destruct (Z_le_gt_dec (now - ChatData.timestamp cd) (chatDuration st)) as [Hle|Hgt].
    + rewrite (liveChatData_live st id now cd E Hle). reflexivity.
    + rewrite (liveChatData_expired st id now cd E) by lia. simpl.
      split; [reflexivity|]. intros id' cd' Hl Hn. simpl.
      destruct (decide (id = id')) as [<-|Hne].
      * rewrite E in Hl. injection Hl as <-. lia.
      * rewrite lookup_delete_ne by assumption. exact Hl.
  - rewrite (liveChatData_absent st id now E). reflexivity.
Qed.

Lemma draw_keeps_live (now : Z) : keeps (live_kept now) (draw now).
Proof.
  unfold draw, drawChatBubble.
  repeat first [ kapply liveChatData_keeps_live | method_step | reflexivity ].
Qed.

Lemma truthy_Some (s : string) : s <> "" -> truthy (Some s) = true.
Proof. intros H. simpl. apply negb_true_iff, String.eqb_neq. exact H. Qed.

(** Handling a chat message that names an entity and carries text. *)
Lemma chat_run (st : GameClient) (m : Msg.t) (id text : string) (now : Z) :
  kind_of (Msg.action m) = chat ->
  Msg.playerId m = Some id -> Msg.message m = Some text ->
  id <> "" -> text <> "" ->
  let written :=
    set_chatMessages (<[id := ChatData.mk text now]> (chatMessages st)) st in
  handleServerMessage m now st =
  mkRun (Normal tt) (client (draw now written))
        (Call m_handleServerMessage :: trace (draw now written)).
Proof.
  intros Hk Hi Ht Hid Htext. cbv zeta. unfold handleServerMessage.
  rewrite Hk, Hi, Ht, !truthy_Some by assumption.
  rewrite run_bind. cbn [completion client trace enter emit andb default].
  rewrite (seq_run _ _ _ (completes_modify _)).
  cbn [completion client trace modify app].
  rewrite (completes_unit _ _ (draw_completes now)). reflexivity.
Qed.

Lemma drawChatBubble_live (st : GameClient) (p : Player.t) (now : Z) (chatData : ChatData.t) :
  chatMessages st !! Player.id p = Some chatData ->
  now - ChatData.timestamp chatData <= chatDuration st ->
  client (drawChatBubble p now st) = st.
Proof.
  intros H Hn. unfold drawChatBubble. rewrite !run_bind. cbn [completion client trace enter emit].
  rewrite (liveChatData_live st _ now chatData H Hn). cbn [completion client trace].
  rewrite run_bind. cbn [completion client trace get].
  match goal with |- context [if ?b then _ else _] => destruct b end; reflexivity.
Qed.

Lemma drawChatBubble_expired (st : GameClient) (p : Player.t) (now : Z) (chatData : ChatData.t) :
  chatMessages st !! Player.id p = Some chatData ->
  chatDuration st < now - ChatData.timestamp chatData ->
  drawChatBubble p now st =
  mkRun (Normal tt) (set_chatMessages (delete (Player.id p) (chatMessages st)) st)
        [Call (m_drawChatBubble (Player.id p))].
Proof.
  intros H Hn. unfold drawChatBubble. rewrite !run_bind. cbn [completion client trace enter emit].
  rewrite (liveChatData_expired st _ now chatData H Hn). reflexivity.
Qed.

(** C2, as the code has it.  A chat message for an entity stores an overlay
    stamped with the time of the write.  Wherever that overlay is still
    stored, the read finds it live for every [now] up to and including
    [t0 + 3000] and leaves the client as it is; for every [now] after
    [t0 + 3000] the read finds nothing and deletes the entry.  A second
    write for the entity stores the new text with the new time, so the
    window restarts there. *)
Theorem overlay_ttl (st : GameClient) (m m' : Msg.t) (id text text' : string) (t0 t1 : Z) :
  kind_of (Msg.action m) = chat ->
  Msg.playerId m = Some id -> Msg.message m = Some text ->
  kind_of (Msg.action m') = chat ->
  Msg.playerId m' = Some id -> Msg.message m' = Some text' ->
  id <> "" -> text <> "" -> text' <> "" ->
  0 <= chatDuration st ->
  let first := client (handleServerMessage m t0 st) in
  let second := client (handleServerMessage m' t1 first) in
  chatMessages first !! id = Some (ChatData.mk text t0) /\
  chatMessages second !! id = Some (ChatData.mk text' t1) /\
  forall (st' : GameClient) (overlay : ChatData.t) (p : Player.t) (now : Z),
    chatDuration st' = 3000 ->
    chatMessages st' !! id = Some overlay ->
    Player.id p = id ->
    (now <= ChatData.timestamp overlay + 3000 ->
       liveChatData id now st' = mkRun (Normal (Some overlay)) st' [] /\
       client (drawChatBubble p now st') = st') /\
    (ChatData.timestamp overlay + 3000 < now ->
       completion (liveChatData id now st') = Normal None /\
       chatMessages (client (liveChatData id now st')) !! id = None /\
       chatMessages (client (drawChatBubble p now st')) !! id = None).
Proof.
  intros Hk Hi Ht Hk' Hi' Ht' Hid Htext Htext' Hdur. cbv zeta.
  assert (Hw : forall s mm tx t, kind_of (Msg.action mm) = chat ->
             Msg.playerId mm = Some id -> Msg.message mm = Some tx -> tx <> "" ->
             0 <= chatDuration s ->
             chatMessages (client (handleServerMessage mm t s)) !! id = Some (ChatData.mk tx t) /\
             chatDuration (client (handleServerMessage mm t s)) = chatDuration s).
  { intros s mm tx t Hmk Hmi Hmt Htx Hd.
    rewrite (chat_run s mm id tx t Hmk Hmi Hmt Hid Htx). cbv zeta. cbn [client].
    destruct (draw_keeps_live t
      (set_chatMessages (<[id:=ChatData.mk tx t]> (chatMessages s)) s)) as [Hd' Hl].
    split; [|exact Hd'].
    apply Hl; simpl.
    - apply lookup_insert_eq.
    - lia. }
  destruct (Hw st m text t0 Hk Hi Ht Htext Hdur) as [H1 Hd1].
  split; [exact H1|]. split.
  { apply Hw; auto. rewrite Hd1. exact Hdur. }
  intros st' overlay p now Hd' Ho Hp. split.
  - intros Hn. split.
    + apply liveChatData_live; [exact Ho | lia].
    + apply (drawChatBubble_live st' p now overlay); [rewrite Hp; exact Ho | lia].
  - intros Hn.
    rewrite (liveChatData_expired st' id now overlay Ho) by lia.
    rewrite (drawChatBubble_expired st' p now overlay) by (rewrite ?Hp; auto; lia).
    simpl. rewrite Hp, lookup_delete_eq. auto.
Qed.

Lemma overlay_ttl_witness :
  let first := client (handleServerMessage Scenario.hello Scenario.t0 Scenario.start) in
  let second := client (handleServerMessage Scenario.hello (Scenario.t0 + 500) first) in
  chatMessages first !! "p2" = Some (ChatData.mk "hello" Scenario.t0) /\
  chatMessages second !! "p2" = Some (ChatData.mk "hello" (Scenario.t0 + 500)).
Proof.
  pose proof (overlay_ttl Scenario.start Scenario.hello Scenario.hello "p2" "hello" "hello"
                Scenario.t0 (Scenario.t0 + 500)
                eq_refl eq_refl eq_refl eq_refl eq_refl eq_refl) as H.
  cbv zeta in H.
  destruct H as (H1 & H2 & _); [discriminate .. | vm_compute; discriminate |].
  split; assumption.
Defined.

(** The specification puts [now = t0 + 3000] outside the window; the read
    still finds the overlay there and keeps it. *)
Lemma overlay_live_at_ttl_end :
  let st := client (handleServerMessage Scenario.hello Scenario.t0 Scenario.start) in
  let now := Scenario.t0 + 3000 in
  chatMessages st !! "p2" = Some (ChatData.mk "hello" Scenario.t0) /\
  now >= Scenario.t0 + 3000 /\
  completion (liveChatData "p2" now st) = Normal (Some (ChatData.mk "hello" Scenario.t0)) /\
  chatMessages (client (liveChatData "p2" now st)) !! "p2"
    = Some (ChatData.mk "hello" Scenario.t0).
Proof. vm_compute. repeat split; discriminate. Qed.

(** ** Chat send *)

Lemma sends_app (tr1 tr2 : list Event) : sends (tr1 ++ tr2) = sends tr1 ++ sends tr2.
Proof.
  induction tr1 as [|e tr1 IH]; [reflexivity|].
  destruct e; simpl; rewrite IH; reflexivity.
Qed.






(** ** Join *)

(** C6, as the code has it.  When the socket opens the client sends exactly
    one record, whose [action] field is the string "join_game" and whose
    [username] field is a string (the constant "Tim"). *)
Theorem join_intent_on_open (st : GameClient) :
  sends (trace (ws_onopen st)) = [joinMessage] /\
  field "action" joinMessage = Some (JStr "join_game") /\
  field "username" joinMessage = Some (JStr "Tim") /\
  completion (ws_onopen st) = Normal tt.
Proof.
  unfold ws_onopen, joinGame, ws_send, playAmbientSound. rewrite !run_bind. simpl.
  destruct (soundEnabled st), (sounds_ambient st); simpl; auto.
Qed.

(** The record sent on open does not carry the action "join". *)
Lemma join_action_is_not_join :
  sends (trace (ws_onopen Scenario.start)) = [joinMessage] /\
  field "action" joinMessage <> Some (JStr "join").
Proof. split; [reflexivity | discriminate]. Qed.

(** ** Asset cache *)

#[global] Instance loaded_kept_preorder : PreOrder loaded_kept.
Proof.
  split.
  - intros st k H. exact H.
  - intros a b c Hab Hbc k H. apply Hbc, Hab, H.
Qed.

Lemma dispatch_keeps_loaded (now : Z) (i : Input) : keeps loaded_kept (dispatch now i).
Proof.
  frame_with ltac:(
    idtac;
    match goal with
    | |- loaded_kept _ _ =>
        let k := fresh "k" in let Hk := fresh "Hk" in
        intros k Hk; simpl;
        first [ exact Hk | apply lookup_insert_is_Some'; right; exact Hk ]
    end).
Qed.

Lemma after_keeps_loaded (inputs : list (Z * Input)) (st : GameClient) :
  loaded_kept st (after inputs st).
Proof.
  revert st. induction inputs as [|[now i] rest IH]; intros st; simpl.
  - reflexivity.
  - transitivity (client (dispatch now i st)); [apply dispatch_keeps_loaded | apply IH].
Qed.

(** The constants of the constructor stay what they are. *)
Lemma dispatch_keeps_settings (now : Z) (i : Input) : keeps (same settings) (dispatch now i).
Proof. frame_with ltac:(idtac; reflexivity). Qed.

Lemma after_keeps_settings (inputs : list (Z * Input)) (st : GameClient) :
  settings (after inputs st) = settings st.
Proof.
  revert st. induction inputs as [|[now i] rest IH]; intros st; simpl; [reflexivity|].
  rewrite IH. symmetry. apply dispatch_keeps_settings.
Qed.

Lemma constructor_settings (innerWidth innerHeight : Q) (audio : bool)
    (inputs : list (Z * Input)) :
  settings (after inputs (constructor innerWidth innerHeight audio))
  = (2048%Q, 2048%Q, 300, 3000).
Proof. rewrite after_keeps_settings. reflexivity. Qed.

Lemma fetches_ImageFetch (srcs : list string) : fetches (map ImageFetch srcs) = srcs.
Proof. induction srcs as [|s srcs IH]; simpl; [|rewrite IH]; reflexivity. Qed.

Lemma fetches_app (tr1 tr2 : list Event) :
  fetches (tr1 ++ tr2) = fetches tr1 ++ fetches tr2.
Proof.
  induction tr1 as [|e tr1 IH]; [reflexivity|].
  destruct e; simpl; rewrite IH; reflexivity.
Qed.

Lemma loadFrames_run (frames : list string) (st : GameClient) :
  loadFrames frames st = mkRun (Normal frames) st (map ImageFetch frames).
Proof.
  induction frames as [|f frames IH]; [reflexivity|].
  simpl. rewrite !run_bind. simpl. rewrite IH. simpl. rewrite app_nil_r. reflexivity.
Qed.

Lemma loadDirections_run (entries acc : list (string * list string)) (st : GameClient) :
  exists loaded,
    loadDirections entries acc st =
    mkRun (Normal loaded) st (map ImageFetch (concat (map snd entries))).
Proof.
  revert acc. induction entries as [|[direction frames] rest IH]; intros acc.
  - exists acc. reflexivity.
  - destruct (IH (Map_set direction frames acc)) as [loaded Hl].
    exists loaded. simpl. rewrite run_bind, loadFrames_run. simpl.
    rewrite Hl. simpl. rewrite map_app. reflexivity.
Qed.

(** C9.  [loadAvatarImage] for an avatar not yet in the cache fetches every
    frame source of the definition once, in order, and enters the avatar in
    the cache at once; a second call for the same avatar only finds the
    entry: it fetches nothing and changes nothing.  Once an avatar is in
    the cache it stays there through every later callback. *)
Theorem loadAvatarImage_once (st : GameClient) (avatar : Avatar.t) :
  let first := loadAvatarImage avatar st in
  let second := loadAvatarImage avatar (client first) in
  completion first = Normal tt /\
  (avatarImages st !! Avatar.name avatar = None ->
     fetches (trace first) = concat (map snd (Avatar.frames avatar))) /\
  is_Some (avatarImages (client first) !! Avatar.name avatar) /\
  second = mkRun (Normal tt) (client first) [Call (m_loadAvatarImage (Avatar.name avatar))] /\
  fetches (trace first ++ trace second) = fetches (trace first) /\
  (forall inputs avatarKey,
     is_Some (avatarImages st !! avatarKey) ->
     is_Some (avatarImages (after inputs st) !! avatarKey)).
Proof.
  cbv zeta.
  assert (Hhit : forall s, is_Some (avatarImages s !! Avatar.name avatar) ->
            loadAvatarImage avatar s =
            mkRun (Normal tt) s [Call (m_loadAvatarImage (Avatar.name avatar))]).
  { intros s Hs. unfold loadAvatarImage. rewrite !run_bind. simpl.
    rewrite (bool_decide_eq_true_2 _ Hs). reflexivity. }
  assert (Hmiss : avatarImages st !! Avatar.name avatar = None ->
            exists loaded,
              loadAvatarImage avatar st =
              mkRun (Normal tt)
                (set_avatarImages
                   (<[Avatar.name avatar := AvatarData.mk (Avatar.name avatar) loaded]>
                      (avatarImages st)) st)
                (Call (m_loadAvatarImage (Avatar.name avatar))
                   :: map ImageFetch (concat (map snd (Avatar.frames avatar))))).
  { intros Hn. destruct (loadDirections_run (Avatar.frames avatar) [] st) as [loaded Hl].
    exists loaded. unfold loadAvatarImage. rewrite !run_bind. simpl.
    rewrite bool_decide_eq_false_2 by (rewrite Hn; apply is_Some_None).
    rewrite run_bind, Hl. simpl. rewrite app_nil_r. reflexivity. }
  assert (Hfirst : completion (loadAvatarImage avatar st) = Normal tt /\
                   is_Some (avatarImages (client (loadAvatarImage avatar st))
                              !! Avatar.name avatar)).
  { destruct (avatarImages st !! Avatar.name avatar) as [d|] eqn:E.
    - rewrite Hhit by (rewrite E; eauto). simpl. rewrite E. eauto.
    - destruct (Hmiss eq_refl) as [loaded ->]. simpl. rewrite lookup_insert_eq. eauto. }
  destruct Hfirst as [Hc Hs].
  split; [exact Hc|]. split; [|split; [exact Hs|split; [|split]]].
  - intros Hn. destruct (Hmiss Hn) as [loaded ->]. simpl. apply fetches_ImageFetch.
  - apply Hhit, Hs.
  - rewrite (Hhit _ Hs). cbn [trace]. rewrite fetches_app. cbn [fetches].
    apply app_nil_r.
  - intros inputs k. apply after_keeps_loaded.
Qed.

Lemma loadAvatarImage_once_witness :
  avatarImages Scenario.start !! Avatar.name Scenario.knight = None /\
  fetches (trace (loadAvatarImage Scenario.knight Scenario.start))
    = ["s0.png"; "s1.png"; "n0.png"].
Proof.
  split; [reflexivity|].
  exact (proj1 (proj2 (loadAvatarImage_once Scenario.start Scenario.knight)) eq_refl).
Defined.

(** ** Footstep cue *)

Lemma cues_app (tr1 tr2 : list Event) : cues (tr1 ++ tr2) = (cues tr1 + cues tr2)%nat.
Proof. unfold cues. rewrite List.filter_app, length_app. reflexivity. Qed.

Lemma cues_quiet (tr : list Event) : Forall quiet tr -> cues tr = 0%nat.
Proof.
  unfold cues, quiet. induction 1 as [|e tr He _ IH]; [reflexivity|].
  simpl. rewrite He. exact IH.
Qed.

(** A method that neither touches the cooldown state nor starts a cue. *)
Lemma paced_quiet {A} (now : Z) (m : M A) :
  keeps (same footstep_state) m -> emits quiet m -> paced now m.
Proof.
  intros Hk He st _. specialize (Hk st). unfold same, footstep_state in Hk.
  injection Hk as Hl Hc. split; [lia|]. left.
  split; [apply cues_quiet, He | lia].
Qed.

Lemma paced_bind {A B} (now : Z) (m : M A) (k : A -> M B) :
  paced now m -> (forall a, paced now (k a)) -> paced now (m ≫= k).
Proof.
  intros Hm Hk st Hpos. rewrite run_bind.
  destruct (Hm st Hpos) as [Hc Hcases].
  destruct (completion (m st)) as [a|e]; unfold pace; cbn [client trace].
  - assert (Hpos' : 0 < footstepCooldown (client (m st))) by lia.
    destruct (Hk a (client (m st)) Hpos') as [Hc' Hcases'].
    split; [lia|]. rewrite cues_app.
    destruct Hcases as [[H0 Hl]|(H1 & Hl & Hgap)];
      destruct Hcases' as [[H0' Hl']|(H1' & Hl' & Hgap')].
    + left. split; [lia | lia].
    + right. rewrite H0, H1'. repeat split; [assumption | lia].
    + right. rewrite H1, H0'. repeat split; [lia | assumption].
    + lia.
  - split; [exact Hc | exact Hcases].
Qed.

Lemma paced_forEach {A} (now : Z) (f : A -> M unit) (xs : list A) :
  (forall x, paced now (f x)) -> paced now (forEach f xs).
Proof.
  intros Hf. induction xs as [|x xs IH]; simpl.
  - apply paced_quiet; [kapply keeps_ret | apply emits_ret].
  - apply paced_bind; auto.
Qed.

Lemma paced_try_catch {A} (now : Z) (body : M A) (handler : Exn -> M A) :
  paced now body ->
  (forall e, keeps (same footstep_state) (handler e)) ->
  (forall e, emits quiet (handler e)) ->
  paced now (try_catch body handler).
Proof.
  intros Hb Hk He st Hpos. unfold try_catch.
  destruct (Hb st Hpos) as [Hc Hcases].
  destruct (completion (body st)) as [a|e]; [split; assumption|].
  unfold pace. cbn [client trace].
  specialize (Hk e (client (body st))). unfold same, footstep_state in Hk.
  injection Hk as Hl Hcd.
  rewrite cues_app, (cues_quiet _ (He e (client (body st)))), Nat.add_0_r.
  split; [lia|].
  destruct Hcases as [[H0 Hl0]|(H1 & Hl1 & Hgap)]; [left | right];
    repeat split; lia || assumption.
Qed.

(** The cooldown check itself. *)
Lemma playFootstepSound_paced (now : Z) : paced now (playFootstepSound now).
Proof.
  intros st Hpos. unfold playFootstepSound. rewrite !run_bind.
  cbn [completion client trace enter emit get].
  destruct (negb (soundEnabled st) || negb (sounds_footsteps st)).
  - split; [reflexivity|]. left. split; reflexivity.
  - destruct (Z.ltb_spec (now - lastFootstepTime st) (footstepCooldown st)).
    + split; [reflexivity|]. left. split; reflexivity.
    + split; [reflexivity|]. right. repeat split. lia.
Qed.

(** Close a goal about a method that has nothing to do with footsteps. *)
Ltac silent :=
  solve
    [ apply paced_quiet;
      [ frame_with ltac:(idtac; reflexivity)
      | frame_with ltac:(idtac; first [ reflexivity
                                      | apply loadDirections_emits; intros; reflexivity ]) ] ].

Lemma movePlayer_paced (now : Z) (entry : string * Player.t) : paced now (movePlayer now entry).
Proof.
  unfold movePlayer. destruct entry as [playerId playerData].
  apply paced_bind; [silent|]. intros _.
  apply paced_bind; [silent|]. intros st.
  destruct (bool_decide (Some playerId = myPlayerId st) && Player.isMoving playerData).
  - apply playFootstepSound_paced.
  - silent.
Qed.

Lemma handleServerMessage_paced (message : Msg.t) (now : Z) :
  paced now (handleServerMessage message now).
Proof.
  unfold handleServerMessage.
  apply paced_bind; [silent|]. intros _.
  destruct (kind_of (Msg.action message)); try silent.
  apply paced_bind; [silent|]. intros players.
  apply paced_bind; [apply paced_forEach, movePlayer_paced|]. intros _.
  silent.
Qed.

Lemma dispatch_paced (now : Z) (i : Input) : paced now (dispatch now i).
Proof.
  destruct i; try silent.
  unfold dispatch, ws_onmessage. apply paced_try_catch.
  - apply paced_bind; [destruct parsed; silent|]. intros m.
    apply handleServerMessage_paced.
  - intros e. frame.
  - intros e. repeat method_step. reflexivity.
Qed.

Lemma playFootstepSound_calls (now : Z) (st : GameClient) :
  calls m_playFootstepSound (trace (playFootstepSound now st)) = 1%nat.
Proof.
  unfold playFootstepSound. rewrite !run_bind. cbn [completion client trace enter emit get].
  destruct (negb (soundEnabled st) || negb (sounds_footsteps st)); [reflexivity|].
  destruct (now - lastFootstepTime st <? footstepCooldown st); reflexivity.
Qed.

Lemma movePlayer_keeps_myPlayerId (now : Z) (entry : string * Player.t) :
  keeps (same myPlayerId) (movePlayer now entry).
Proof. frame. Qed.

Lemma movePlayer_attempts (now : Z) (entry : string * Player.t) (st : GameClient) :
  calls m_playFootstepSound (trace (movePlayer now entry st))
  = if local_moving st entry then 1%nat else 0%nat.
Proof.
  unfold movePlayer, local_moving. destruct entry as [playerId playerData].
  rewrite !run_bind. cbn [completion client trace modify get fst snd].
  change (myPlayerId (set_allPlayers _ st)) with (myPlayerId st).
  destruct (bool_decide (Some playerId = myPlayerId st) && Player.isMoving playerData).
  - cbn [app]. apply playFootstepSound_calls.
  - reflexivity.
Qed.

(** Within a batch the cue is attempted once per entry that is about the
    local player on the move, and for no other entry. *)
Lemma movePlayers_attempts (now : Z) (batch : list (string * Player.t)) (st : GameClient) :
  calls m_playFootstepSound (trace (forEach (movePlayer now) batch st))
  = length (List.filter (local_moving st) batch).
Proof.
  revert st. induction batch as [|entry batch IH]; intros st; [reflexivity|].
  cbn [forEach]. rewrite (seq_run _ _ _ (movePlayer_completes now entry)).
  cbn [trace]. rewrite calls_app, movePlayer_attempts, IH.
  assert (Hid : myPlayerId (client (movePlayer now entry st)) = myPlayerId st)
    by (symmetry; apply movePlayer_keeps_myPlayerId).
  assert (Hf : List.filter (local_moving (client (movePlayer now entry st))) batch
               = List.filter (local_moving st) batch)
    by (apply List.filter_ext; intros e; unfold local_moving; rewrite Hid; reflexivity).
  rewrite Hf. cbn [List.filter]. destruct (local_moving st entry); reflexivity.
Qed.

Lemma handleServerMessage_attempts (st : GameClient) (m : Msg.t) (now : Z)
    (batch : list (string * Player.t)) :
  kind_of (Msg.action m) = players_moved ->
  Msg.players m = Some batch ->
  calls m_playFootstepSound (trace (handleServerMessage m now st))
  = length (List.filter (local_moving st) batch).
Proof.
  intros Hk Hb. rewrite (players_moved_run st m now batch Hk Hb). cbv zeta. cbn [trace].
  rewrite updateCamera_trace.
  destruct (draw_trace now (client (updateCamera (client (forEach (movePlayer now) batch st)))))
    as (painted & -> & Hp).
  rewrite calls_cons, !calls_app, !calls_cons, movePlayers_attempts.
  rewrite (of_bubbles_not_call _ painted) by (auto; discriminate).
  cbn [is_call calls List.filter length].
  rewrite !bool_decide_eq_false_2 by discriminate. lia.
Qed.

(** Close an [emits no_attempt] goal for a method that never reaches
    [playFootstepSound]. *)
Ltac unattempted :=
  solve
    [ frame_with ltac:(idtac; first [ reflexivity
                                    | apply loadDirections_emits; intros; reflexivity ]) ].

Lemma handleServerMessage_no_attempt (m : Msg.t) (now : Z) :
  kind_of (Msg.action m) <> players_moved \/ Msg.players m = None ->
  emits no_attempt (handleServerMessage m now).
Proof.
  intros H. unfold handleServerMessage.
  apply emits_bind; [unattempted|]. intros _.
  destruct (kind_of (Msg.action m)) eqn:E; try unattempted.
  destruct H as [H|H]; [congruence|]. rewrite H.
  intros st. rewrite run_bind. constructor.
Qed.

Lemma ws_onmessage_Some (st : GameClient) (m : Msg.t) (now : Z) :
  ws_onmessage (Some m) now st =
  try_catch (handleServerMessage m now)
            (fun error => emit (ConsoleError "Failed to parse server message:")) st.
Proof. unfold ws_onmessage, try_catch. rewrite ret_bind. reflexivity. Qed.

Lemma ws_onmessage_normal (st : GameClient) (m : Msg.t) (now : Z) :
  completion (handleServerMessage m now st) = Normal tt ->
  ws_onmessage (Some m) now st = handleServerMessage m now st.
Proof. intros H. rewrite ws_onmessage_Some. unfold try_catch. rewrite H. reflexivity. Qed.

(** Per callback, the cue is attempted once for each batch entry about the
    local player on the move and never otherwise. *)
Lemma dispatch_attempts (now : Z) (i : Input) (st : GameClient) :
  calls m_playFootstepSound (trace (dispatch now i st)) = length (footstep_entries st i).
Proof.
  assert (Hquiet : forall m : M unit, emits no_attempt m ->
                     calls m_playFootstepSound (trace (m st)) = 0%nat)
    by (intros m Hm; apply calls_none, Hm).
  assert (Hcaught : forall m, emits no_attempt (handleServerMessage m now) ->
                     calls m_playFootstepSound (trace (ws_onmessage (Some m) now st)) = 0%nat).
  { intros m Hm. rewrite ws_onmessage_Some. apply Hquiet.
    apply emits_try_catch; [exact Hm | intros ?; apply emits_emit; reflexivity]. }
  destruct i as [| |[m|]| | |]; cbn [footstep_entries length];
    try (apply Hquiet; unattempted); cbn [dispatch].
  - destruct (kind_of (Msg.action m)) eqn:Hk;
      try (apply Hcaught, handleServerMessage_no_attempt; left; congruence).
    destruct (Msg.players m) as [batch|] eqn:Hb.
    + rewrite ws_onmessage_normal.
      * apply handleServerMessage_attempts; assumption.
      * rewrite (players_moved_run st m now batch Hk Hb). reflexivity.
    + apply Hcaught, handleServerMessage_no_attempt. right. exact Hb.
  - apply Hquiet. unfold ws_onmessage.
    apply emits_try_catch; [|intros ?; apply emits_emit; reflexivity].
    intros st'. rewrite run_bind. constructor.
Qed.

Lemma cue_times_cons (now : Z) (tr : list Event) (log : list (Z * list Event)) :
  cue_times ((now, tr) :: log) = repeat now (cues tr) ++ cue_times log.
Proof. reflexivity. Qed.

(** Along any session the cues are a full cooldown apart, and none comes
    sooner than a cooldown after the [lastFootstepTime] it starts from. *)
Lemma session_paced (cooldown : Z) (inputs : list (Z * Input)) (st : GameClient) :
  0 < cooldown ->
  footstepCooldown st = cooldown ->
  StronglySorted (fun earlier later => earlier + cooldown <= later)
                 (cue_times (session inputs st)) /\
  Forall (fun t => lastFootstepTime st + cooldown <= t) (cue_times (session inputs st)).
Proof.
  intros Hpos. revert st. induction inputs as [|[now i] rest IH]; intros st Hcd.
  - split; constructor.
  - cbn [session]. rewrite cue_times_cons.
    destruct (dispatch_paced now i st) as [Hc Hcases]; [lia|].
    destruct (IH (client (dispatch now i st))) as [Hs Hf]; [lia|].
    destruct Hcases as [[H0 Hl]|(H1 & Hl & Hgap)].
    + rewrite H0. cbn [repeat app]. split; [exact Hs|].
      rewrite Hl in Hf. exact Hf.
    + rewrite H1. cbn [repeat app]. rewrite Hl in Hf. split.
      * constructor; assumption.
      * constructor; [lia|]. eapply Forall_impl; [exact Hf|]. cbn beta. intros t Ht. lia.
Qed.

(** C8.  Through any sequence of callbacks, positions updates or others, any
    two footstep cues are at least 300 ms of clock reading apart; and a
    callback attempts the cue once for each entry of a ['players_moved']
    batch whose identifier is the local identity and whose moving flag is
    set, and for nothing else. *)
Theorem footstep_cue_paced (st : GameClient) (inputs : list (Z * Input)) :
  footstepCooldown st = 300 ->
  StronglySorted (fun earlier later => earlier + 300 <= later)
                 (cue_times (session inputs st)) /\
  (forall now i,
     calls m_playFootstepSound (trace (dispatch now i st))
     = length (footstep_entries st i) /\
     (cues (trace (dispatch now i st)) <= 1)%nat).
Proof.
  intros Hcd. split.
  - apply (session_paced 300 inputs st); [lia | exact Hcd].
  - intros now i. split; [apply dispatch_attempts|].
    destruct (dispatch_paced now i st) as [_ [[H0 _]|[H1 _]]]; lia.
Qed.

Lemma footstep_cue_paced_witness :
  footstepCooldown Scenario.start = 300 /\
  cue_times (session Scenario.inputs Scenario.start) = [Scenario.t0 + 1000] /\
  StronglySorted (fun earlier later => earlier + 300 <= later)
                 (cue_times (session Scenario.inputs Scenario.start)).
Proof.
  split; [reflexivity|]. split; [vm_compute; reflexivity|].
  exact (proj1 (footstep_cue_paced Scenario.start Scenario.inputs eq_refl)).
Defined.

(** ** Key edges *)

(* [set_solver] clears hypotheses it has already consumed *)
#[local] Set Warnings "-clear-no-such-hyp".

Lemma intents_of_app (tr1 tr2 : list Event) :
  intents_of (tr1 ++ tr2) = intents_of tr1 ++ intents_of tr2.
Proof.
  induction tr1 as [|e tr1 IH]; [reflexivity|].
  destruct e as [[]| | | | | |]; simpl; rewrite IH; reflexivity.
Qed.

(** [handleKeyDown], case by case. *)
Lemma handleKeyDown_other (st : GameClient) (key : string) :
  getDirectionFromKey key = None ->
  handleKeyDown key st = mkRun (Normal tt) st [Call (m_handleKeyDown key)].
Proof. intros H. unfold handleKeyDown. rewrite !run_bind. simpl. rewrite H. reflexivity. Qed.

Lemma handleKeyDown_held (st : GameClient) (key direction : string) :
  getDirectionFromKey key = Some direction ->
  key ∈ pressedKeys st ->
  handleKeyDown key st = mkRun (Normal tt) st [Call (m_handleKeyDown key)].
Proof.
  intros H Hin. unfold handleKeyDown. rewrite !run_bind. simpl.
  rewrite H, (bool_decide_eq_true_2 _ Hin). reflexivity.
Qed.

Lemma handleKeyDown_pressed (st : GameClient) (key direction : string) :
  getDirectionFromKey key = Some direction ->
  key ∉ pressedKeys st ->
  handleKeyDown key st =
  mkRun (Normal tt)
    (set_currentDirection (Some direction)
       (set_isMoving true (set_pressedKeys ({[key]} ∪ pressedKeys st) st)))
    (Call (m_handleKeyDown key) :: Call (m_sendMoveCommand direction)
       :: map WsSend (written st [KeySpec.Move direction])).
Proof.
  intros H Hin. unfold handleKeyDown, sendMoveCommand, ws_send, written, ws_not_open.
  rewrite !run_bind. simpl.
  rewrite H, (bool_decide_eq_false_2 _ Hin).
  destruct (ws st) as [[]|] eqn:E;
    repeat (rewrite ?run_bind; simpl; rewrite ?E); reflexivity.
Qed.

(** [handleKeyUp], case by case. *)
Lemma handleKeyUp_other (st : GameClient) (key : string) :
  getDirectionFromKey key = None \/ key ∉ pressedKeys st ->
  handleKeyUp key st = mkRun (Normal tt) st [Call (m_handleKeyUp key)].
Proof.
  intros H. unfold handleKeyUp. rewrite !run_bind. simpl.
  destruct (getDirectionFromKey key); [|reflexivity].
  destruct H as [H|H]; [discriminate|].
  rewrite (bool_decide_eq_false_2 _ H). reflexivity.
Qed.

Lemma handleKeyUp_more (st : GameClient) (key direction : string) :
  getDirectionFromKey key = Some direction ->
  key ∈ pressedKeys st ->
  pressedKeys st ∖ {[key]} <> ∅ ->
  handleKeyUp key st =
  mkRun (Normal tt) (set_pressedKeys (pressedKeys st ∖ {[key]}) st)
        [Call (m_handleKeyUp key)].
Proof.
  intros H Hin Hne. unfold handleKeyUp. rewrite !run_bind. simpl.
  rewrite H, (bool_decide_eq_true_2 _ Hin). rewrite !run_bind. simpl.
  rewrite bool_decide_eq_false_2; [reflexivity|].
  intros Hs. apply Hne. apply leibniz_equiv, size_empty_iff. exact Hs.
Qed.

Lemma handleKeyUp_last (st : GameClient) (key direction : string) :
  getDirectionFromKey key = Some direction ->
  key ∈ pressedKeys st ->
  pressedKeys st ∖ {[key]} = ∅ ->
  handleKeyUp key st =
  mkRun (Normal tt)
    (set_currentDirection None
       (set_isMoving false (set_pressedKeys (pressedKeys st ∖ {[key]}) st)))
    (Call (m_handleKeyUp key) :: Call m_sendStopCommand
       :: map WsSend (written st [KeySpec.Stop])).
Proof.
  intros H Hin He. unfold handleKeyUp, sendStopCommand, ws_send, written, ws_not_open.
  rewrite !run_bind. simpl.
  rewrite H, (bool_decide_eq_true_2 _ Hin). rewrite !run_bind. simpl.
  rewrite bool_decide_eq_true_2 by (rewrite He; apply size_empty).
  destruct (ws st) as [[]|] eqn:E;
    repeat (rewrite ?run_bind; simpl; rewrite ?E); reflexivity.
Qed.

Lemma intents_of_sends (payloads : list JObject) : intents_of (map WsSend payloads) = [].
Proof. induction payloads; simpl; auto. Qed.

Lemma sends_WsSend (payloads : list JObject) : sends (map WsSend payloads) = payloads.
Proof. induction payloads as [|p ps IH]; simpl; [|rewrite IH]; reflexivity. Qed.

Lemma written_nil (st : GameClient) : written st [] = [].
Proof. unfold written. destruct (ws_not_open st); reflexivity. Qed.

Lemma written_app (st : GameClient) (is1 is2 : list KeySpec.Intent) :
  written st (is1 ++ is2) = written st is1 ++ written st is2.
Proof. unfold written. destruct (ws_not_open st); [reflexivity | apply map_app]. Qed.

(** One key event: the handler emits what the specification's transition
    emits, moves the pressed set as it does, writes the emitted intents to
    the socket if it is open, and leaves the socket alone. *)
Lemma key_step_refines (now : Z) (ev : KeySpec.KeyEvent) (st : GameClient) :
  let r := dispatch now (key_input ev) st in
  completion r = Normal tt /\
  intents_of (trace r) = KeySpec.emitted (pressedKeys st) ev /\
  pressedKeys (client r) = KeySpec.next (pressedKeys st) ev /\
  sends (trace r) = written st (KeySpec.emitted (pressedKeys st) ev) /\
  ws (client r) = ws st.
Proof.
  cbv zeta. destruct ev as [key|key]; cbn [key_input dispatch KeySpec.emitted KeySpec.next].
  - destruct (getDirectionFromKey key) as [d|] eqn:Hd.
    + destruct (decide (key ∈ pressedKeys st)) as [Hin|Hin].
      * rewrite (handleKeyDown_held st key d Hd Hin). cbn [completion client trace].
        rewrite bool_decide_eq_false_2 by (intros [? _]; contradiction).
        rewrite written_nil. repeat split. set_solver.
      * rewrite (handleKeyDown_pressed st key d Hd Hin). cbn [completion client trace].
        rewrite bool_decide_eq_true_2 by set_solver.
        cbn [intents_of sends]. rewrite intents_of_sends, sends_WsSend. repeat split.
    + rewrite (handleKeyDown_other st key Hd). cbn [completion client trace].
      rewrite written_nil. repeat split.
  - destruct (getDirectionFromKey key) as [d|] eqn:Hd.
    + destruct (decide (key ∈ pressedKeys st)) as [Hin|Hin].
      * destruct (decide (pressedKeys st ∖ {[key]} = ∅)) as [He|Hne].
        -- rewrite (handleKeyUp_last st key d Hd Hin He). cbn [completion client trace].
           rewrite bool_decide_eq_true_2 by (split; [set_solver | exact He]).
           cbn [intents_of sends]. rewrite intents_of_sends, sends_WsSend. repeat split.
        -- rewrite (handleKeyUp_more st key d Hd Hin Hne). cbn [completion client trace].
           rewrite bool_decide_eq_false_2 by (intros [_ ?]; contradiction).
           rewrite written_nil. repeat split.
      * rewrite (handleKeyUp_other st key) by (right; exact Hin).
        cbn [completion client trace].
        rewrite bool_decide_eq_false_2 by set_solver.
        rewrite written_nil. repeat split. set_solver.
    + rewrite (handleKeyUp_other st key) by (left; exact Hd).
      cbn [completion client trace].
      rewrite bool_decide_eq_false_2 by (intros [? ?]; contradiction).
      rewrite written_nil. repeat split.
Qed.

Lemma ws_not_open_same (st st' : GameClient) :
  ws st' = ws st -> written st' = written st.
Proof. intros H. unfold written, ws_not_open. rewrite H. reflexivity. Qed.

(** A whole sequence of key events, event by event. *)
Lemma key_session_refines (timed : list (Z * KeySpec.KeyEvent)) (st : GameClient) :
  let log := session (key_inputs timed) st in
  map (fun entry => intents_of (snd entry)) log
    = KeySpec.each (pressedKeys st) (map snd timed) /\
  map (fun entry => sends (snd entry)) log
    = map (written st) (KeySpec.each (pressedKeys st) (map snd timed)) /\
  pressedKeys (after (key_inputs timed) st) = KeySpec.held (pressedKeys st) (map snd timed).
Proof.
  cbv zeta. revert st. induction timed as [|[now ev] rest IH]; intros st.
  - repeat split.
  - cbn [key_inputs map fst snd session after KeySpec.each KeySpec.held].
    destruct (key_step_refines now ev st) as (_ & Hi & Hp & Hs & Hw).
    cbv zeta in *. fold (key_inputs rest).
    destruct (IH (client (dispatch now (key_input ev) st))) as (IH1 & IH2 & IH3).
    rewrite IH1, IH2, IH3, Hi, Hp, Hs, (ws_not_open_same _ _ Hw). repeat split.
Qed.

(** Holding down: repeats of a key that is already pressed emit nothing. *)
Lemma each_held (pressed : gset string) (key direction : string) (n : nat)
    (rest : list KeySpec.KeyEvent) :
  getDirectionFromKey key = Some direction ->
  key ∈ pressed ->
  concat (KeySpec.each pressed (repeat (KeySpec.Down key) n ++ rest))
  = concat (KeySpec.each pressed rest).
Proof.
  intros Hd Hin. induction n as [|n IH]; [reflexivity|].
  cbn [repeat app KeySpec.each KeySpec.emitted KeySpec.next concat]. rewrite Hd.
  rewrite bool_decide_eq_false_2 by (intros [? _]; contradiction).
  replace ({[key]} ∪ pressed) with pressed by set_solver. exact IH.
Qed.

Lemma concat_map_concat {X Y} (f : list X -> list Y) (ls : list (list X)) :
  f [] = [] -> (forall a b, f (a ++ b) = f a ++ f b) ->
  concat (map f ls) = f (concat ls).
Proof.
  intros Hn Ha. induction ls as [|l ls IH]; simpl; [symmetry; exact Hn|].
  rewrite Ha, IH. reflexivity.
Qed.

Lemma events_of_intents (log : list (Z * list Event)) :
  intents_of (events_of log) = concat (map (fun entry => intents_of (snd entry)) log).
Proof.
  unfold events_of. induction log as [|[t tr] log IH]; [reflexivity|].
  cbn [flat_map map concat snd]. rewrite intents_of_app, IH. reflexivity.
Qed.

Lemma events_of_sends (log : list (Z * list Event)) :
  sends (events_of log) = concat (map (fun entry => sends (snd entry)) log).
Proof.
  unfold events_of. induction log as [|[t tr] log IH]; [reflexivity|].
  cbn [flat_map map concat snd]. rewrite sends_app, IH. reflexivity.
Qed.

(** C5.  For every sequence of key events, from any client: event by event,
    [sendMoveCommand] is invoked exactly when a movement key goes from not
    pressed to pressed and [sendStopCommand] exactly when the pressed set
    goes from non-empty to empty, as the specification's transition system
    has it; the records reaching the socket are those intents when it is
    open (none when it is not).  In particular one key pressed, held through
    any number of repeats and released emits one move and one stop; and with
    two keys down the first release emits nothing and the second one stop. *)
Theorem key_edges (st : GameClient) (timed : list (Z * KeySpec.KeyEvent)) :
  let log := session (key_inputs timed) st in
  let evs := map snd timed in
  map (fun entry => intents_of (snd entry)) log = KeySpec.each (pressedKeys st) evs /\
  intents_of (events_of log) = KeySpec.intents (pressedKeys st) evs /\
  sends (events_of log) = written st (KeySpec.intents (pressedKeys st) evs) /\
  pressedKeys (after (key_inputs timed) st) = KeySpec.held (pressedKeys st) evs /\
  (forall key direction n,
     getDirectionFromKey key = Some direction ->
     pressedKeys st = ∅ ->
     evs = KeySpec.Down key :: repeat (KeySpec.Down key) n ++ [KeySpec.Up key] ->
     intents_of (events_of log) = [KeySpec.Move direction; KeySpec.Stop]) /\
  (forall key1 key2 direction1 direction2,
     getDirectionFromKey key1 = Some direction1 ->
     getDirectionFromKey key2 = Some direction2 ->
     key1 <> key2 ->
     pressedKeys st = ∅ ->
     evs = [KeySpec.Down key1; KeySpec.Down key2; KeySpec.Up key1; KeySpec.Up key2] ->
     map (fun entry => intents_of (snd entry)) log
     = [[KeySpec.Move direction1]; [KeySpec.Move direction2]; []; [KeySpec.Stop]]).
Proof.
  cbv zeta. destruct (key_session_refines timed st) as (He & Hs & Hh). cbv zeta in *.
  assert (Hflat : intents_of (events_of (session (key_inputs timed) st))
                  = KeySpec.intents (pressedKeys st) (map snd timed))
    by (rewrite events_of_intents, He; reflexivity).
  split; [exact He|]. split; [exact Hflat|]. split; [|split; [exact Hh|split]].
  - rewrite events_of_sends, Hs. unfold KeySpec.intents.
    apply concat_map_concat; [apply written_nil | apply written_app].
  - intros key d n Hd Hempty Hevs. rewrite Hflat, Hevs, Hempty. unfold KeySpec.intents.
    cbn [KeySpec.each KeySpec.emitted KeySpec.next concat]. rewrite Hd.
    rewrite bool_decide_eq_true_2 by set_solver.
    rewrite (each_held _ key d n _ Hd) by set_solver.
    cbn [KeySpec.each KeySpec.emitted KeySpec.next concat]. rewrite Hd.
    rewrite bool_decide_eq_true_2 by set_solver. reflexivity.
  - intros k1 k2 d1 d2 H1 H2 Hne Hempty Hevs. rewrite He, Hevs, Hempty.
    cbn [KeySpec.each KeySpec.emitted KeySpec.next]. rewrite H1, H2.
    rewrite (bool_decide_eq_true_2 ((k1 ∉ (∅ : gset string)) ∧ _)) by set_solver.
    rewrite (bool_decide_eq_true_2 ((k2 ∉ _) ∧ _)) by set_solver.
    rewrite (bool_decide_eq_false_2 (_ ≠ ∅ ∧ ({[k2]} ∪ ({[k1]} ∪ ∅)) ∖ {[k1]} = ∅))
      by set_solver.
    rewrite bool_decide_eq_true_2 by set_solver. reflexivity.
Qed.

Lemma key_edges_witness :
  let timed := [(0, KeySpec.Down "ArrowUp"); (30, KeySpec.Down "ArrowUp");
                (60, KeySpec.Down "ArrowUp"); (90, KeySpec.Up "ArrowUp")] in
  getDirectionFromKey "ArrowUp" = Some "up" /\
  pressedKeys Scenario.start = ∅ /\
  intents_of (events_of (session (key_inputs timed) Scenario.start))
  = [KeySpec.Move "up"; KeySpec.Stop].
Proof.
  split; [reflexivity|]. split; [reflexivity|].
  exact (proj1 (proj2 (proj2 (proj2 (proj2
           (key_edges Scenario.start
              [(0, KeySpec.Down "ArrowUp"); (30, KeySpec.Down "ArrowUp");
               (60, KeySpec.Down "ArrowUp"); (90, KeySpec.Up "ArrowUp")])))))
         "ArrowUp" "up" 2%nat eq_refl eq_refl eq_refl).
Defined.

(** ** Messages that lack a required field *)







(** * More properties of the client *)

(** ** Guards *)

#[global] Instance preserving_preorder (I : GameClient -> Prop) : PreOrder (preserving I).
Proof.
  split.
  - intros st H. exact H.
  - intros a b c Hab Hbc H. apply Hbc, Hab, H.
Qed.

Section Guarded.
Context (G : GameClient -> Prop) (P : Event -> Prop).

Lemma guarded_quiet {A} (m : M A) :
  keeps (preserving G) m -> emits P m -> guarded G P m.
Proof. intros Hk He st HG. split; [apply He | apply Hk, HG]. Qed.

Lemma guarded_bind {A B} (m : M A) (k : A -> M B) :
  guarded G P m -> (forall a, guarded G P (k a)) -> guarded G P (m ≫= k).
Proof.
  intros Hm Hk st HG. rewrite run_bind. destruct (Hm st HG) as [Ht HG'].
  destruct (completion (m st)) as [a|e]; cbn [client trace].
  - destruct (Hk a _ HG') as [Ht' HG'']. split; [apply Forall_app; auto | exact HG''].
  - auto.
Qed.

Lemma guarded_forEach {A} (f : A -> M unit) (xs : list A) :
  (forall x, guarded G P (f x)) -> guarded G P (forEach f xs).
Proof.
  intros Hf. induction xs as [|x xs IH]; simpl.
  - intros st HG. split; [constructor | exact HG].
  - apply guarded_bind; auto.
Qed.

Lemma guarded_try_catch {A} (body : M A) (handler : Exn -> M A) :
  guarded G P body -> (forall e, guarded G P (handler e)) ->
  guarded G P (try_catch body handler).
Proof.
  intros Hb Hh st HG. unfold try_catch. destruct (Hb st HG) as [Ht HG'].
  destruct (completion (body st)) as [a|e]; [auto|].
  cbn [client trace]. destruct (Hh e _ HG') as [Ht' HG''].
  split; [apply Forall_app; auto | exact HG''].
Qed.

End Guarded.

(** Follow a method down to the places named by [leaf]; what has nothing to
    do with the guard closes as a frame fact. *)
Ltac guard_with leaf :=
  repeat first
    [ leaf
    | match goal with
      | |- guarded _ _ (@mbind M _ _ _ _ _) => apply guarded_bind; [| intros ?]
      | |- guarded _ _ (forEach _ _) => apply guarded_forEach; intros ?
      | |- guarded _ _ (try_catch _ _) => apply guarded_try_catch; [| intros ?]
      | |- guarded _ _ (if ?b then _ else _) => destruct b
      | |- guarded _ _ (match ?x with _ => _ end) => destruct x
      | |- guarded _ _ (let '(_, _) := ?x in _) => destruct x
      end
    | solve [ apply guarded_quiet;
              [ frame_with ltac:(idtac; (intros ?; first [assumption | reflexivity]))
              | frame_with ltac:(idtac; first
                  [ reflexivity
                  | apply loadDirections_emits; intros; reflexivity ]) ] ]
    | progress unfold dispatch, ws_onopen, joinGame, ws_onclose, ws_onmessage,
        handleServerMessage,
        sendChatMessage, handleKeyDown, handleKeyUp, movePlayer,
        sendMoveCommand, sendStopCommand, sendClickToMoveCommand, handleCanvasClick,
        window_onresize, draw, drawChatBubble, loadAvatarImages, loadAvatarImage,
        updateCamera, stopAmbientSound ].

(** ** Nothing is sent unless the socket is open *)

Lemma ws_send_closed (payload : JObject) : guarded closed no_send (ws_send payload).
Proof.
  intros st Hc. unfold ws_send, closed, ws_not_open in *. rewrite run_bind. simpl.
  destruct (ws st) as [[]|] eqn:E; try discriminate; simpl;
    (split; [constructor | rewrite E; reflexivity]).
Qed.

Lemma dispatch_closed (now : Z) (i : Input) :
  i <> SocketOpen -> guarded closed no_send (dispatch now i).
Proof.
  intros Hi. destruct i; try congruence;
    guard_with ltac:(idtac; apply ws_send_closed).
Qed.

Lemma pointer_closed (clientX clientY rect_left rect_top : Q) :
  guarded closed no_send (handleCanvasClick clientX clientY rect_left rect_top).
Proof. guard_with ltac:(idtac; apply ws_send_closed). Qed.

Lemma resize_closed (innerWidth innerHeight : Q) (now : Z) :
  guarded closed no_send (window_onresize innerWidth innerHeight now).
Proof. guard_with ltac:(idtac; apply ws_send_closed). Qed.

Lemma sends_no_send (tr : list Event) : Forall no_send tr -> sends tr = [].
Proof.
  induction 1 as [|e tr He _ IH]; [reflexivity|].
  destruct e; simpl in *; try exact IH. discriminate.
Qed.

(** A guard that every allowed input respects holds along a session. *)
Lemma session_guarded (G : GameClient -> Prop) (P : Event -> Prop)
    (allowed : Input -> Prop) :
  (forall now i, allowed i -> guarded G P (dispatch now i)) ->
  forall inputs st,
    G st -> Forall (fun ti => allowed (snd ti)) inputs ->
    Forall (fun entry => Forall P (snd entry)) (session inputs st) /\
    G (after inputs st).
Proof.
  intros Hd inputs. induction inputs as [|[now i] rest IH]; intros st HG Hin.
  - split; [constructor | exact HG].
  - inversion Hin as [|? ? Hi Hrest]; subst. cbn [session after].
    destruct (Hd now i Hi st HG) as [Ht HG'].
    destruct (IH _ HG' Hrest) as [Hs HG''].
    split; [constructor; assumption | exact HG''].
Qed.

Lemma events_of_Forall (P : Event -> Prop) (log : list (Z * list Event)) :
  Forall (fun entry => Forall P (snd entry)) log -> Forall P (events_of log).
Proof.
  unfold events_of. induction 1 as [|[t tr] log Ht _ IH]; [constructor|].
  cbn [flat_map snd]. apply Forall_app. auto.
Qed.

(** While the socket is not open nothing is written to it: not by a key, a
    chat button, a click, an inbound message, a resize or the close of the
    socket, alone or in any sequence, and the socket stays as it is; only
    [ws.onopen] ends that. *)
Theorem nothing_sent_unless_open (st : GameClient) :
  ws_not_open st = true ->
  (forall inputs,
     Forall (fun ti => snd ti <> SocketOpen) inputs ->
     sends (events_of (session inputs st)) = [] /\
     ws_not_open (after inputs st) = true) /\
  (forall clientX clientY rect_left rect_top,
     handleCanvasClick clientX clientY rect_left rect_top st = mkRun (Normal tt) st []) /\
  (forall innerWidth innerHeight now,
     sends (trace (window_onresize innerWidth innerHeight now st)) = []).
Proof.
  intros Hc. split; [|split].
  - intros inputs Hin.
    destruct (session_guarded closed no_send (fun i => i <> SocketOpen)
                (fun now i Hi => dispatch_closed now i Hi) inputs st Hc Hin) as [Hs Hg].
    split; [apply sends_no_send, events_of_Forall, Hs | exact Hg].
  - intros. unfold handleCanvasClick, sendClickToMoveCommand.
    rewrite !run_bind. simpl. rewrite Hc. reflexivity.
  - intros. apply sends_no_send. apply resize_closed. exact Hc.
Qed.

Lemma nothing_sent_unless_open_witness :
  ws_not_open Scenario.start = true /\
  sends (events_of (session [(0, KeyDown "ArrowUp"); (5, ChatButton "hello");
                             (9, KeyUp "ArrowUp")] Scenario.start)) = [].
Proof.
  split; [reflexivity|].
  apply (proj1 (nothing_sent_unless_open Scenario.start eq_refl)).
  repeat constructor; discriminate.
Defined.

(** ** No sound without audio *)

Lemma playFootstepSound_off (now : Z) : guarded sound_off no_audio (playFootstepSound now).
Proof.
  intros st Ho. unfold playFootstepSound, sound_off in *. rewrite !run_bind. simpl.
  rewrite Ho. simpl. split; [repeat constructor | exact Ho].
Qed.

Lemma playAmbientSound_off : guarded sound_off no_audio playAmbientSound.
Proof.
  intros st Ho. unfold playAmbientSound, sound_off in *. rewrite !run_bind. simpl.
  rewrite Ho. simpl. split; [repeat constructor | exact Ho].
Qed.

Lemma dispatch_sound_off (now : Z) (i : Input) : guarded sound_off no_audio (dispatch now i).
Proof.
  destruct i;
    guard_with ltac:(idtac; first [ apply playFootstepSound_off
                                  | apply playAmbientSound_off ]).
Qed.

(** When the audio context could not be set up ([soundEnabled] is false), no
    callback ever starts a sound, footstep or ambient, and [soundEnabled]
    stays false. *)
Theorem no_sound_when_disabled (st : GameClient) (inputs : list (Z * Input)) :
  soundEnabled st = false ->
  Forall (fun e => is_audio e = false) (events_of (session inputs st)) /\
  cue_times (session inputs st) = [] /\
  soundEnabled (after inputs st) = false.
Proof.
  intros Ho.
  destruct (session_guarded sound_off no_audio (fun _ => True)
              (fun now i _ => dispatch_sound_off now i) inputs st Ho) as [Hs Hg].
  { apply Forall_forall. auto. }
  split; [apply events_of_Forall, Hs|]. split; [|exact Hg].
  clear Hg. induction Hs as [|[t tr] log Ht _ IH]; [reflexivity|].
  rewrite cue_times_cons, IH, app_nil_r.
  replace (cues tr) with 0%nat; [reflexivity|].
  symmetry. apply cues_quiet. eapply Forall_impl; [exact Ht|].
  intros [] He; try reflexivity. discriminate.
Qed.

Lemma no_sound_when_disabled_witness :
  soundEnabled (constructor 800 600 false) = false /\
  cue_times (session Scenario.inputs (constructor 800 600 false)) = [].
Proof.
  split; [reflexivity|].
  exact (proj1 (proj2 (no_sound_when_disabled (constructor 800 600 false)
                         Scenario.inputs eq_refl))).
Defined.

(** ** No callback lets an exception escape *)






(** ** What a repaint does to the overlays *)

Lemma drawChatBubble_completes (p : Player.t) (now : Z) : completes (drawChatBubble p now).
Proof. total. Qed.


Lemma drawChatBubble_none (st : GameClient) (p : Player.t) (now : Z) :
  chatMessages st !! Player.id p = None ->
  drawChatBubble p now st = mkRun (Normal tt) st [Call (m_drawChatBubble (Player.id p))].
Proof.
  intros H. unfold drawChatBubble. rewrite !run_bind. cbn [completion client trace enter emit].
  rewrite (liveChatData_absent st _ now H). reflexivity.
Qed.

Lemma drawChatBubble_overlays (st : GameClient) (p : Player.t) (now : Z) (id : string) :
  chatMessages (client (drawChatBubble p now st)) !! id
  = match chatMessages st !! id with
    | Some chatData =>
        if String.eqb (Player.id p) id && expired st now chatData
        then None else Some chatData
    | None => None
    end.
Proof.
  destruct (chatMessages st !! Player.id p) as [cd0|] eqn:E0.
  - destruct (Z_le_gt_dec (now - ChatData.timestamp cd0) (chatDuration st)) as [Hle|Hgt].
    + rewrite (drawChatBubble_live st p now cd0 E0 Hle).
      destruct (chatMessages st !! id) as [cd|] eqn:E; [|reflexivity].
      destruct (String.eqb_spec (Player.id p) id) as [Heq|Hne]; [|reflexivity].
      rewrite Heq, E in E0. injection E0 as ->. unfold expired.
      destruct (Z.gtb_spec (now - ChatData.timestamp cd0) (chatDuration st)); [lia|].
      reflexivity.
    + rewrite (drawChatBubble_expired st p now cd0 E0) by lia. cbn [client].
      change (chatMessages (set_chatMessages ?m st)) with m.
      destruct (String.eqb_spec (Player.id p) id) as [Heq|Hne].
      * rewrite <- Heq, lookup_delete_eq, E0. unfold expired.
        destruct (Z.gtb_spec (now - ChatData.timestamp cd0) (chatDuration st)); [|lia].
        reflexivity.
      * rewrite lookup_delete_ne by assumption.
        destruct (chatMessages st !! id); reflexivity.
  - rewrite (drawChatBubble_none st p now E0).  cbn [client].
    destruct (chatMessages st !! id) as [cd|] eqn:E; [|reflexivity].
    destruct (String.eqb_spec (Player.id p) id) as [Heq|Hne]; [|reflexivity].
    rewrite Heq in E0. congruence.
Qed.





Lemma drawChatBubble_keeps_frame (p : Player.t) (now : Z) :
  keeps (same bubble_frame) (drawChatBubble p now).
Proof. frame. Qed.

Lemma Qlt_bool_false (a b : Q) : Qlt_bool a b = false -> (b <= a)%Q.
Proof.
  unfold Qlt_bool. intros H. apply negb_false_iff in H. apply Qle_bool_iff. exact H.
Qed.

Lemma drawChatBubble_paints (st : GameClient) (p : Player.t) (now : Z) :
  Forall (fun e =>
            match e with
            | PaintBubble text screenX textY =>
                exists chatData,
                  chatMessages st !! Player.id p = Some chatData /\
                  ChatData.message chatData = text /\
                  now - ChatData.timestamp chatData <= chatDuration st /\
                  screenX = (Player.x p - cameraX st)%Q /\
                  textY = (Player.y p - cameraY st - 60 + 20)%Q /\
                  (-100 <= screenX <= canvas_width st + 100)%Q /\
                  (-100 <= Player.y p - cameraY st <= canvas_height st + 100)%Q
            | _ => True
            end)
         (trace (drawChatBubble p now st)).
Proof.
  destruct (chatMessages st !! Player.id p) as [cd|] eqn:E.
  - destruct (Z_le_gt_dec (now - ChatData.timestamp cd) (chatDuration st)) as [Hle|Hgt].
    + unfold drawChatBubble. rewrite !run_bind. cbn [completion client trace enter emit].
      rewrite (liveChatData_live st _ now cd E Hle). cbn [completion client trace].
      rewrite run_bind. cbn [completion client trace get app].
      constructor; [exact I|].
      destruct (Qlt_bool (Player.x p - cameraX st) (-100)) eqn:C1; [constructor|].
      destruct (Qlt_bool (canvas_width st + 100) (Player.x p - cameraX st)) eqn:C2;
        [constructor|].
      destruct (Qlt_bool (Player.y p - cameraY st) (-100)) eqn:C3; [constructor|].
      destruct (Qlt_bool (canvas_height st + 100) (Player.y p - cameraY st)) eqn:C4;
        [constructor|].
      cbn [orb emit trace]. constructor; [|constructor].
      exists cd. apply Qlt_bool_false in C1, C2, C3, C4. repeat split; auto.
    + rewrite (drawChatBubble_expired st p now cd E) by lia. repeat constructor.
  - rewrite (drawChatBubble_none st p now E). repeat constructor.
Qed.

Lemma bubbles_paint_live (now : Z) (st0 : GameClient) (players : list (string * Player.t))
    (st : GameClient) :
  (forall kv, In kv players -> In (snd kv) (map snd (allPlayers st0))) ->
  bubble_frame st = bubble_frame st0 ->
  (forall id cd, chatMessages st !! id = Some cd -> chatMessages st0 !! id = Some cd) ->
  Forall (bubble_of_live st0 now)
         (trace (forEach (fun kv => drawChatBubble (snd kv) now) players st)).
Proof.
  revert st. induction players as [|[k p] players IH]; intros st Hin Hf Hsub.
  - constructor.
  - cbn [forEach snd]. rewrite (seq_run _ _ _ (drawChatBubble_completes p now)).
    cbn [trace]. apply Forall_app. split.
    + eapply Forall_impl; [apply drawChatBubble_paints|].
      intros [] He; try exact I. cbn beta iota in He.
      destruct He as (cd & Hl & Hm & Ht & Hx & Hy & Hbx & Hby).
      unfold bubble_frame in Hf. injection Hf as Hcx Hcy Hcw Hch Hd.
      exists p, cd. rewrite <- Hcx, <- Hcy, <- Hcw, <- Hch, <- Hd.
      repeat split; auto; try apply Hbx; try apply Hby.
      apply (Hin (k, p)). left. reflexivity.
    + apply IH.
      * intros kv Hkv. apply Hin. right. exact Hkv.
      * rewrite <- Hf. symmetry. apply drawChatBubble_keeps_frame.
      * intros id cd Hl. apply Hsub.
        rewrite drawChatBubble_overlays in Hl.
        destruct (chatMessages st !! id) as [cd'|]; [|discriminate].
        destruct (String.eqb (Player.id p) id && expired st now cd'); congruence.
Qed.

(** Whatever a repaint paints as a chat bubble is the text of an overlay
    that is still live at that time, of a player the store holds, placed at
    that player's screen position and no further than 100 off the canvas:
    an expired overlay, or one of an entity that is not stored, is never
    painted. *)
Theorem draw_paints_live_overlays (st : GameClient) (now : Z) :
  Forall (bubble_of_live st now) (trace (draw now st)).
Proof.
  unfold draw. rewrite !run_bind. cbn [completion client trace enter emit get].
  destruct (worldImage st); cbn [negb].
  - cbn [app]. constructor; [exact I|]. apply bubbles_paint_live; auto.
    intros kv Hkv. apply in_map. exact Hkv.
  - repeat constructor.
Qed.

(** ** The entity store *)

Section JSMapKeys.
Context {V : Type}.
Implicit Types (m : list (string * V)) (k : string) (v : V).










End JSMapKeys.




Lemma calls_draw_once (now : Z) (st : GameClient) (m : Method) :
  (forall id, m <> m_drawChatBubble id) ->
  calls m (trace (draw now st)) = if bool_decide (m_draw = m) then 1%nat else 0%nat.
Proof.
  intros Hm. destruct (draw_trace now st) as (painted & -> & Hp).
  rewrite calls_cons, (of_bubbles_not_call m painted Hm Hp). cbn [is_call].
  destruct (bool_decide (m_draw = m)); reflexivity.
Qed.



(** Upsert.  After a ['players_moved'] batch the store holds, for every
    identifier, the last record the batch carries for it, whole, and for an
    identifier the batch does not mention the record it held before: a batch
    adds and replaces and never removes.  The avatar tables and the local
    identity are untouched. *)
Theorem players_moved_upserts (st : GameClient) (m : Msg.t) (now : Z)
    (batch : list (string * Player.t)) :
  kind_of (Msg.action m) = players_moved ->
  Msg.players m = Some batch ->
  let st' := client (handleServerMessage m now st) in
  (forall k, Map_get k (allPlayers st')
             = match Map_get k (rev batch) with
               | Some p => Some p
               | None => Map_get k (allPlayers st)
               end) /\
  (forall k, is_Some (Map_get k (allPlayers st)) -> is_Some (Map_get k (allPlayers st'))) /\
  (avatars st', avatarImages st', myPlayerId st', myPlayer st')
  = (avatars st, avatarImages st, myPlayerId st, myPlayer st).
Proof.
  intros Hk Hb. cbv zeta. rewrite (players_moved_run st m now batch Hk Hb). cbv zeta.
  cbn [client].
  set (applied := client (forEach (movePlayer now) batch st)).
  assert (Hstore : forall k, Map_get k (allPlayers (client (draw now (client (updateCamera applied)))))
                             = match Map_get k (rev batch) with
                               | Some p => Some p
                               | None => Map_get k (allPlayers st)
                               end).
  { intros k. rewrite <- (draw_keeps_allPlayers now (client (updateCamera applied))).
    rewrite <- ((ltac:(frame) : keeps (same allPlayers) updateCamera) applied).
    apply movePlayers_store. }
  split; [exact Hstore|]. split.
  - intros k [p Hp]. rewrite Hstore, Hp. destruct (Map_get k (rev batch)); eauto.
  - set (other := fun s => (avatars s, avatarImages s, myPlayerId s, myPlayer s)).
    change (other (client (draw now (client (updateCamera applied)))) = other st).
    rewrite <- ((ltac:(frame) : keeps (same other) (draw now)) (client (updateCamera applied))).
    rewrite <- ((ltac:(frame) : keeps (same other) updateCamera) applied).
    symmetry. apply ((ltac:(frame) : keeps (same other) (forEach (movePlayer now) batch)) st).
Qed.

Lemma players_moved_upserts_witness :
  kind_of (Msg.action Scenario.moved) = players_moved /\
  Map_get "p1" (allPlayers (client (handleServerMessage Scenario.moved 5 Scenario.start)))
  = Some (Scenario.p1 1000 1000 true).
Proof.
  split; [reflexivity|].
  exact (proj1 (players_moved_upserts Scenario.start Scenario.moved 5 _ eq_refl eq_refl) "p1").
Defined.

(** ** Avatar images *)

Lemma Map_get_app {V} (l1 l2 : list (string * V)) (k : string) :
  Map_get k (l1 ++ l2)
  = match Map_get k l1 with Some v => Some v | None => Map_get k l2 end.
Proof.
  induction l1 as [|[k1 v1] l1 IH]; simpl; [reflexivity|].
  destruct (String.eqb k k1); [reflexivity | exact IH].
Qed.

(** Building a [Map] (or an object) entry by entry: the last entry for a key
    wins. *)
Lemma Map_get_fold_set {V} (entries acc : list (string * V)) (k : string) :
  Map_get k (fold_left (fun m kv => Map_set (fst kv) (snd kv) m) entries acc)
  = match Map_get k (rev entries) with
    | Some v => Some v
    | None => Map_get k acc
    end.
Proof.
  revert acc. induction entries as [|[k' v'] entries IH]; intros acc; [reflexivity|].
  cbn [fold_left fst snd rev]. rewrite IH, Map_get_app.
  destruct (Map_get k (rev entries)); [reflexivity|].
  cbn [Map_get]. destruct (String.eqb_spec k k') as [->|Hne].
  - apply Map_get_set_eq.
  - apply Map_get_set_ne, Hne.
Qed.

Lemma Map_get_new_Map {V} (entries : list (string * V)) (k : string) :
  Map_get k (new_Map entries) = Map_get k (rev entries).
Proof.
  unfold new_Map. rewrite Map_get_fold_set. destruct (Map_get k (rev entries)); reflexivity.
Qed.

Lemma loadDirections_result (entries acc : list (string * list string)) (st : GameClient) :
  loadDirections entries acc st =
  mkRun (Normal (fold_left (fun m kv => Map_set (fst kv) (snd kv) m) entries acc)) st
        (map ImageFetch (concat (map snd entries))).
Proof.
  revert acc. induction entries as [|[direction frames] rest IH]; intros acc; [reflexivity|].
  cbn [loadDirections]. rewrite run_bind, loadFrames_run. cbn [completion client trace].
  rewrite IH. cbn [completion client trace map concat snd fst fold_left].
  rewrite map_app. reflexivity.
Qed.

(** [loadAvatarImage], case by case. *)
Lemma loadAvatarImage_hit (st : GameClient) (avatar : Avatar.t) :
  is_Some (avatarImages st !! Avatar.name avatar) ->
  loadAvatarImage avatar st =
  mkRun (Normal tt) st [Call (m_loadAvatarImage (Avatar.name avatar))].
Proof.
  intros Hs. unfold loadAvatarImage. rewrite !run_bind. simpl.
  rewrite (bool_decide_eq_true_2 _ Hs). reflexivity.
Qed.

Lemma loadAvatarImage_miss (st : GameClient) (avatar : Avatar.t) :
  avatarImages st !! Avatar.name avatar = None ->
  loadAvatarImage avatar st =
  mkRun (Normal tt)
    (set_avatarImages
       (<[Avatar.name avatar :=
            AvatarData.mk (Avatar.name avatar) (new_Map (Avatar.frames avatar))]>
          (avatarImages st)) st)
    (Call (m_loadAvatarImage (Avatar.name avatar))
       :: map ImageFetch (concat (map snd (Avatar.frames avatar)))).
Proof.
  intros Hn. unfold loadAvatarImage. rewrite !run_bind. simpl.
  rewrite bool_decide_eq_false_2 by (rewrite Hn; apply is_Some_None).
  rewrite run_bind, loadDirections_result. simpl. rewrite app_nil_r. reflexivity.
Qed.

Lemma loadAvatarImage_completes (avatar : Avatar.t) : completes (loadAvatarImage avatar).
Proof.
  intros st. exists tt. destruct (avatarImages st !! Avatar.name avatar) eqn:E.
  - rewrite loadAvatarImage_hit by (rewrite E; eauto). reflexivity.
  - rewrite (loadAvatarImage_miss st avatar E). reflexivity.
Qed.

#[global] Instance cache_kept_preorder : PreOrder cache_kept.
Proof.
  split.
  - intros st k d H. exact H.
  - intros a b c Hab Hbc k d H. apply Hbc, Hab, H.
Qed.

Lemma loadAvatarImage_keeps_cache (avatar : Avatar.t) :
  keeps cache_kept (loadAvatarImage avatar).
Proof.
  intros st k d Hk. destruct (avatarImages st !! Avatar.name avatar) eqn:E.
  - rewrite loadAvatarImage_hit by (rewrite E; eauto). exact Hk.
  - rewrite (loadAvatarImage_miss st avatar E). cbn [client].
    change (avatarImages (set_avatarImages ?m st)) with m.
    rewrite lookup_insert_ne; [exact Hk|]. intros <-. congruence.
Qed.

Lemma dispatch_keeps_cache (now : Z) (i : Input) : keeps cache_kept (dispatch now i).
Proof.
  repeat first
    [ kapply loadAvatarImage_keeps_cache
    | method_step
    | progress unfold dispatch, ws_onopen, ws_onclose, ws_onmessage,
        handleServerMessage, sendChatMessage, handleKeyDown, handleKeyUp,
        draw, drawChatBubble, liveChatData, updateCamera,
        playFootstepSound, playAmbientSound, stopAmbientSound, movePlayer,
        loadAvatarImages, joinGame, ws_send, sendMoveCommand, sendStopCommand
    | (intros ? ? ?; assumption) ].
Qed.

(** The first definition wins.  Once an avatar is in the image cache its
    entry is never replaced or removed by any callback: a later definition
    under the same name (a ['player_joined'] or a new ['join_game']) is
    stored in [avatars], but it is not fetched and the cached images stay
    those of the first one. *)
Theorem cached_avatar_never_changes (st : GameClient) (inputs : list (Z * Input))
    (avatarKey : string) (avatarData : AvatarData.t) :
  avatarImages st !! avatarKey = Some avatarData ->
  avatarImages (after inputs st) !! avatarKey = Some avatarData /\
  (forall avatar now,
     Avatar.name avatar = avatarKey ->
     fetches (trace (loadAvatarImage avatar st)) = [] /\
     forall m, kind_of (Msg.action m) = player_joined ->
               Msg.avatar m = Some avatar -> is_Some (Msg.player m) ->
       fetches (trace (handleServerMessage m now st)) = [] /\
       Map_get avatarKey (avatars (client (handleServerMessage m now st))) = Some avatar /\
       avatarImages (client (handleServerMessage m now st)) !! avatarKey = Some avatarData).
Proof.
  intros Hc. split.
  - revert st Hc. induction inputs as [|[now i] rest IH]; intros st Hc; simpl; [exact Hc|].
    apply IH, dispatch_keeps_cache, Hc.
  - intros avatar now Hname. subst avatarKey.
    assert (Hs : is_Some (avatarImages st !! Avatar.name avatar)) by (rewrite Hc; eauto).
    split; [rewrite (loadAvatarImage_hit st avatar Hs); reflexivity|].
    intros m Hk Ha [p Hp]. unfold handleServerMessage. rewrite Hk, Ha, Hp.
    rewrite run_bind. cbn [completion client trace enter emit].
    cbn [property_of]. rewrite !ret_bind.
    rewrite (seq_run _ _ _ (completes_modify _)). cbn [completion client trace modify].
    rewrite !ret_bind.
    rewrite (seq_run _ _ _ (completes_modify _)). cbn [completion client trace modify].
    set (stored := set_avatars _ _).
    assert (Hs' : is_Some (avatarImages stored !! Avatar.name avatar)) by exact Hs.
    rewrite (seq_run _ _ _ (loadAvatarImage_completes avatar)).
    rewrite (loadAvatarImage_hit stored avatar Hs'). cbn [completion client trace app].
    destruct (draw_trace now stored) as (painted & Ht & Hpaint). rewrite Ht.
    split; [|split].
    + cbn [fetches]. clear Ht. induction Hpaint as [|e tr He _ IH]; [reflexivity|].
      destruct e as [[]| | | | | |]; simpl in *; try contradiction; exact IH.
    + rewrite <- ((ltac:(frame) : keeps (same avatars) (draw now)) stored).
      apply Map_get_set_eq.
    + rewrite <- ((ltac:(frame) : keeps (same avatarImages) (draw now)) stored).
      exact Hc.
Qed.

Lemma cached_avatar_never_changes_witness :
  let st := client (loadAvatarImage Scenario.knight Scenario.start) in
  let data := AvatarData.mk "knight" (new_Map (Avatar.frames Scenario.knight)) in
  avatarImages st !! "knight" = Some data /\
  avatarImages (after Scenario.inputs st) !! "knight" = Some data.
Proof.
  cbv zeta. split; [reflexivity|].
  exact (proj1 (cached_avatar_never_changes
                  (client (loadAvatarImage Scenario.knight Scenario.start))
                  Scenario.inputs "knight" _ eq_refl)).
Defined.

(** ** Entities joining *)








(** ** Joining *)







(** ** Painting an avatar *)

Lemma Qlt_bool_true (a b : Q) : Qlt_bool a b = true <-> (a < b)%Q.
Proof.
  unfold Qlt_bool. rewrite negb_true_iff. split.
  - intros H. apply Qnot_le_lt. intros Hle. apply Qle_bool_iff in Hle. congruence.
  - intros H. destruct (Qle_bool b a) eqn:E; [|reflexivity].
    apply Qle_bool_iff in E. exfalso. apply (Qlt_not_le _ _ H E).
Qed.

Lemma Qlt_bool_false_iff (a b : Q) : Qlt_bool a b = false <-> (b <= a)%Q.
Proof.
  unfold Qlt_bool. rewrite negb_false_iff. apply Qle_bool_iff.
Qed.

(** From the definition to the canvas.  Before an avatar is loaded a player
    wearing it is not painted at all (no sprite and no name label).  Once
    [loadAvatarImage] has run, the player is painted with the frame its
    [facing] and [animationFrame] select in the definition (the last frame
    list given for that direction), bottom-centred on its screen position
    with its name above, provided it is no further than 50 off the canvas;
    a direction the definition lacks, a frame index off the list, or a
    position further off, paints nothing. *)
Theorem drawAvatar_after_load (st : GameClient) (avatar : Avatar.t) (player : Player.t) :
  avatarImages st !! Avatar.name avatar = None ->
  Player.avatar player = Avatar.name avatar ->
  let st' := client (loadAvatarImage avatar st) in
  let screenX := (Player.x player - cameraX st)%Q in
  let screenY := (Player.y player - cameraY st)%Q in
  drawAvatar st player = [] /\
  match Map_get (Player.facing player) (rev (Avatar.frames avatar)) with
  | None => drawAvatar st' player = []
  | Some frames =>
      match array_at frames (Player.animationFrame player) with
      | None => drawAvatar st' player = []
      | Some img =>
          ((-50 <= screenX <= canvas_width st + 50)%Q ->
           (-50 <= screenY <= canvas_height st + 50)%Q ->
           drawAvatar st' player
           = [DrawSprite img (screenX - 32 / 2) (screenY - 32) 32 32;
              StrokeText (Player.username player) screenX (screenY - 32 - 5);
              FillText (Player.username player) screenX (screenY - 32 - 5)]) /\
          ((screenX < -50 \/ canvas_width st + 50 < screenX \/
            screenY < -50 \/ canvas_height st + 50 < screenY)%Q ->
           drawAvatar st' player = [])
      end
  end.
Proof.
  intros Hn Hav. cbv zeta. split.
  { unfold drawAvatar. rewrite Hav, Hn. reflexivity. }
  rewrite (loadAvatarImage_miss st avatar Hn). cbn [client].
  unfold drawAvatar. rewrite Hav.
  change (avatarImages (set_avatarImages ?m st)) with m.
  rewrite lookup_insert_eq. cbn [AvatarData.frames]. rewrite Map_get_new_Map.
  destruct (Map_get (Player.facing player) (rev (Avatar.frames avatar))) as [frames|];
    [|reflexivity].
  destruct (array_at frames (Player.animationFrame player)) as [img|]; [|reflexivity].
  change (cameraX (set_avatarImages ?m st)) with (cameraX st).
  change (cameraY (set_avatarImages ?m st)) with (cameraY st).
  change (canvas_width (set_avatarImages ?m st)) with (canvas_width st).
  change (canvas_height (set_avatarImages ?m st)) with (canvas_height st).
  split.
  - intros [H1 H2] [H3 H4].
    apply Qlt_bool_false_iff in H1, H2, H3, H4. rewrite H1, H2, H3, H4. reflexivity.
  - intros H.
    destruct (Qlt_bool (Player.x player - cameraX st) (-50)) eqn:C1; [reflexivity|].
    destruct (Qlt_bool (canvas_width st + 50) (Player.x player - cameraX st)) eqn:C2;
      [reflexivity|].
    destruct (Qlt_bool (Player.y player - cameraY st) (-50)) eqn:C3; [reflexivity|].
    destruct (Qlt_bool (canvas_height st + 50) (Player.y player - cameraY st)) eqn:C4;
      [reflexivity|].
    exfalso. destruct H as [H|[H|[H|H]]]; apply Qlt_bool_true in H; congruence.
Qed.

Lemma drawAvatar_after_load_witness :
  let st := Cases.playing in
  avatarImages st !! Avatar.name Cases.mage = None /\
  drawAvatar (client (loadAvatarImage Cases.mage st)) (Cases.ann 300 300)
  = [DrawSprite "m1.png" (300 - 0 - 32 / 2) (300 - 0 - 32) 32 32;
     StrokeText "Ann" (300 - 0) (300 - 0 - 32 - 5);
     FillText "Ann" (300 - 0) (300 - 0 - 32 - 5)].
Proof.
  cbv zeta. split; [reflexivity|].
  pose proof (drawAvatar_after_load Cases.playing Cases.mage (Cases.ann 300 300)
                eq_refl eq_refl) as [_ H].
  cbv zeta in H.
  change (Map_get (Player.facing (Cases.ann 300 300)) (rev (Avatar.frames Cases.mage)))
    with (Some ["m0.png"; "m1.png"]) in H.
  change (array_at ["m0.png"; "m1.png"] (Player.animationFrame (Cases.ann 300 300)))
    with (Some "m1.png") in H.
  destruct H as [H _].
  apply H; vm_compute; split; discriminate.
Defined.

(** ** Click to move *)







(** ** Resize *)

(** A resize of the window sets the canvas to the new size and requests one
    repaint, and that is all: the camera is not recomputed and stays where
    it was, whatever the new size, and the world as the client knows it is
    untouched.  The camera follows the new size only at the next
    [updateCamera]. *)
Theorem resize_keeps_camera (st : GameClient) (innerWidth innerHeight : Q) (now : Z) :
  let r := window_onresize innerWidth innerHeight now st in
  (canvas_width (client r), canvas_height (client r)) = (innerWidth, innerHeight) /\
  world (client r) = world st /\
  calls m_updateCamera (trace r) = 0%nat /\
  calls m_draw (trace r) = 1%nat /\
  (forall p, myPlayer st = Some p ->
     cameraX (client (updateCamera (client r)))
     = Math_max 0 (Math_min (Player.x p - innerWidth / 2) (worldWidth st - innerWidth))).
Proof.
  cbv zeta. unfold window_onresize.
  rewrite (seq_run _ _ _ (completes_modify _)). cbn [completion client trace modify].
  rewrite (seq_run _ _ _ (completes_modify _)). cbn [completion client trace modify app].
  set (resized := set_canvas_height innerHeight (set_canvas_width innerWidth st)).
  assert (Hfr : forall {X} (f : GameClient -> X),
            keeps (same f) (draw now) -> f (client (draw now resized)) = f resized).
  { intros X f H. symmetry. apply H. }
  split; [apply (Hfr _ (fun s => (canvas_width s, canvas_height s))); frame|].
  split; [apply (Hfr _ world); frame|].
  split; [apply calls_draw_once; discriminate|].
  split; [apply calls_draw_once; discriminate|].
  intros p Hp.
  assert (Hm : myPlayer (client (draw now resized)) = Some p)
    by (rewrite (Hfr _ myPlayer) by frame; exact Hp).
  assert (Hc : canvas_width (client (draw now resized)) = innerWidth)
    by (rewrite (Hfr _ canvas_width) by frame; reflexivity).
  assert (Hw : worldWidth (client (draw now resized)) = worldWidth st)
    by (rewrite (Hfr _ worldWidth) by frame; reflexivity).
  rewrite (updateCamera_run _ p Hm). cbn [client]. cbn [cameraX set_cameraY set_cameraX].
  rewrite Hc, Hw. reflexivity.
Qed.

Lemma resize_keeps_camera_witness :
  let st := set_cameraX 600 (set_myPlayer (Some (Scenario.p1 1000 1000 true)) Scenario.start) in
  myPlayer st = Some (Scenario.p1 1000 1000 true) /\
  cameraX (client (window_onresize 3000 600 5 st)) = 600%Q /\
  (cameraX (client (updateCamera (client (window_onresize 3000 600 5 st)))) == 0)%Q.
Proof.
  cbv zeta. split; [reflexivity|]. split; [reflexivity|].
  rewrite (proj2 (proj2 (proj2 (proj2
             (resize_keeps_camera
                (set_cameraX 600 (set_myPlayer (Some (Scenario.p1 1000 1000 true))
                                    Scenario.start))
                3000 600 5)))) (Scenario.p1 1000 1000 true) eq_refl).
  vm_compute. reflexivity.
Defined.

(** ** The mini-map *)

Lemma miniMap_scale_spec (st : GameClient) :
  (0 < worldWidth st)%Q -> (0 < worldHeight st)%Q ->
  let s := miniMap_scale st in
  (0 < s)%Q /\
  (worldWidth st * s <= miniMapCanvas_width)%Q /\
  (worldHeight st * s <= miniMapCanvas_height)%Q /\
  (worldWidth st * s == miniMapCanvas_width \/
   worldHeight st * s == miniMapCanvas_height)%Q.
Proof.
  intros Hw Hh. cbv zeta. unfold miniMap_scale, Math_min.
  set (a := (miniMapCanvas_width / worldWidth st)%Q).
  set (b := (miniMapCanvas_height / worldHeight st)%Q).
  assert (Ha : (worldWidth st * a == miniMapCanvas_width)%Q)
    by (unfold a; field; lra).
  assert (Hb : (worldHeight st * b == miniMapCanvas_height)%Q)
    by (unfold b; field; lra).
  assert (Hmw : (0 < miniMapCanvas_width)%Q) by reflexivity.
  assert (Hmh : (0 < miniMapCanvas_height)%Q) by reflexivity.
  assert (Hpa : (0 < a)%Q) by nra.
  assert (Hpb : (0 < b)%Q) by nra.
  destruct (Q.min_spec a b) as [[Hlt ->]|[Hle ->]].
  - split; [exact Hpa|]. split; [lra|]. split; [nra | left; exact Ha].
  - split; [exact Hpb|]. split; [nra|]. split; [lra | right; exact Hb].
Qed.

(** The mini-map keeps the world's proportions and fits its canvas: one
    scale factor serves both axes, the scaled world fills the canvas along
    one axis and does not exceed it along the other.  Each stored player
    gets exactly one dot, green and 4 wide for the local identity, red and
    2 wide for any other, centred at the player's position times the scale,
    which lies on the scaled world whenever the player is in the world.  The
    yellow rectangle is the viewport times the scale, and it lies on the
    scaled world when the camera is within [0, world - viewport]. *)
Theorem miniMap_layout (st : GameClient) :
  (0 < worldWidth st)%Q -> (0 < worldHeight st)%Q ->
  worldImage st = true ->
  let s := miniMap_scale st in
  let scaledWidth := (worldWidth st * s)%Q in
  let scaledHeight := (worldHeight st * s)%Q in
  (0 < s /\ scaledWidth <= 200 /\ scaledHeight <= 200 /\
   (scaledWidth == 200 \/ scaledHeight == 200))%Q /\
  length (drawMiniMap st) = (3 + length (allPlayers st))%nat /\
  (forall k player, In (k, player) (allPlayers st) ->
     exists miniMapX miniMapY,
       In (if bool_decide (Some (Player.id player) = myPlayerId st)
           then FillRect "#00ff00" (miniMapX - 2) (miniMapY - 2) 4 4
           else FillRect "#ff0000" (miniMapX - 1) (miniMapY - 1) 2 2)
          (drawMiniMap st) /\
       (miniMapX == Player.x player * s)%Q /\ (miniMapY == Player.y player * s)%Q /\
       ((0 <= Player.x player <= worldWidth st)%Q -> (0 <= miniMapX <= scaledWidth)%Q) /\
       ((0 <= Player.y player <= worldHeight st)%Q -> (0 <= miniMapY <= scaledHeight)%Q)) /\
  (exists viewportX viewportY viewportWidth viewportHeight,
     last (drawMiniMap st)
       = Some (StrokeRect "#ffff00" viewportX viewportY viewportWidth viewportHeight) /\
     (viewportX == cameraX st * s)%Q /\ (viewportY == cameraY st * s)%Q /\
     (viewportWidth == canvas_width st * s)%Q /\
     (viewportHeight == canvas_height st * s)%Q /\
     ((0 <= cameraX st <= worldWidth st - canvas_width st)%Q ->
      (0 <= viewportX /\ viewportX + viewportWidth <= scaledWidth)%Q) /\
     ((0 <= cameraY st <= worldHeight st - canvas_height st)%Q ->
      (0 <= viewportY /\ viewportY + viewportHeight <= scaledHeight)%Q)).
Proof.
  intros Hw Hh Hi. cbv zeta.
  destruct (miniMap_scale_spec st Hw Hh) as (Hs & Hsw & Hsh & Hfill). cbv zeta in *.
  set (s := miniMap_scale st) in *.
  assert (Hx : forall v, (v / worldWidth st * (worldWidth st * s) == v * s)%Q)
    by (intros v; field; lra).
  assert (Hy : forall v, (v / worldHeight st * (worldHeight st * s) == v * s)%Q)
    by (intros v; field; lra).
  split; [auto|].
  unfold drawMiniMap. rewrite Hi. cbn [negb]. fold s.
  split.
  { cbn [length app]. rewrite length_app, length_map. cbn [length]. lia. }
  split.
  - intros k player Hin.
    exists (Player.x player / worldWidth st * (worldWidth st * s))%Q,
           (Player.y player / worldHeight st * (worldHeight st * s))%Q.
    split.
    { apply in_or_app. right. apply in_or_app. left.
      apply (in_map (fun kv => miniMap_dot st (snd kv)) _ (k, player)) in Hin.
      exact Hin. }
    split; [apply Hx|]. split; [apply Hy|]. split.
    + intros [H0 H1]. rewrite Hx. split; nra.
    + intros [H0 H1]. rewrite Hy. split; nra.
  - eexists _, _, _, _. split.
    { rewrite app_assoc. apply last_snoc. }
    split; [apply Hx|]. split; [apply Hy|]. split; [apply Hx|]. split; [apply Hy|].
    split.
    + intros [H0 H1]. rewrite !Hx. split; nra.
    + intros [H0 H1]. rewrite !Hy. split; nra.
Qed.

Lemma miniMap_layout_witness :
  (0 < worldWidth Cases.playing)%Q /\
  (worldWidth Cases.playing * miniMap_scale Cases.playing <= 200)%Q /\
  length (drawMiniMap Cases.playing) = 4%nat.
Proof.
  split; [reflexivity|].
  destruct (miniMap_layout Cases.playing eq_refl eq_refl eq_refl)
    as ((_ & H & _) & Hl & _).
  split; [exact H | exact Hl].
Defined.

(** ** Messages the client has no use for *)

Lemma junk_run (st : GameClient) (parsed : option Msg.t) (now : Z) :
  junk parsed ->
  client (ws_onmessage parsed now st) = st /\
  completion (ws_onmessage parsed now st) = Normal tt /\
  length (logged (trace (ws_onmessage parsed now st))) = 1%nat /\
  sends (trace (ws_onmessage parsed now st)) = [] /\
  calls m_draw (trace (ws_onmessage parsed now st)) = 0%nat.
Proof.
  destruct parsed as [m|]; cbn [junk].
  - intros Hk. rewrite ws_onmessage_normal;
      unfold handleServerMessage; rewrite Hk; repeat split.
  - intros _. repeat split.
Qed.

Lemma after_app (pre post : list (Z * Input)) (st : GameClient) :
  after (pre ++ post) st = after post (after pre st).
Proof.
  revert st. induction pre as [|[now i] pre IH]; intros st; [reflexivity|].
  simpl. apply IH.
Qed.

Lemma session_app (pre post : list (Z * Input)) (st : GameClient) :
  session (pre ++ post) st = session pre st ++ session post (after pre st).
Proof.
  revert st. induction pre as [|[now i] pre IH]; intros st; [reflexivity|].
  simpl. rewrite IH. reflexivity.
Qed.

(** Text that is not JSON and messages of no recognised kind (an [action]
    that is missing or is none of the five) are dropped: one console line,
    nothing sent, no repaint, the client unchanged.  So such a message
    anywhere in a session changes nothing for what comes before or after
    it: the client ends as if it had not arrived, and the socket sees the
    same records. *)
Theorem junk_is_transparent (st : GameClient) (parsed : option Msg.t) (now : Z)
    (pre post : list (Z * Input)) :
  junk parsed ->
  let with_junk := pre ++ (now, SocketMessage parsed) :: post in
  after with_junk st = after (pre ++ post) st /\
  sends (events_of (session with_junk st)) = sends (events_of (session (pre ++ post) st)) /\
  ws_onmessage parsed now st
  = mkRun (Normal tt) st
      (match parsed with
       | Some _ => [Call m_handleServerMessage; ConsoleLog "Unknown message type:"]
       | None => [ConsoleError "Failed to parse server message:"]
       end).
Proof.
  intros Hj. cbv zeta.
  assert (Hst : forall s, client (dispatch now (SocketMessage parsed) s) = s)
    by (intros s; apply (junk_run s parsed now Hj)).
  split; [|split].
  - rewrite !after_app. cbn [after]. rewrite Hst. reflexivity.
  - rewrite !session_app. cbn [session]. rewrite Hst.
    unfold events_of. rewrite !flat_map_app. cbn [flat_map snd].
    rewrite !sends_app.
    destruct (junk_run (after pre st) parsed now Hj) as (_ & _ & _ & Hs & _).
    cbn [dispatch]. rewrite Hs. reflexivity.
  - destruct parsed as [m|]; cbn [junk] in Hj; [|reflexivity].
    rewrite ws_onmessage_normal; unfold handleServerMessage; rewrite Hj; reflexivity.
Qed.

Lemma junk_is_transparent_witness :
  junk (Some Cases.rumour) /\
  after (firstn 2 Scenario.inputs ++ (5, SocketMessage (Some Cases.rumour))
           :: skipn 2 Scenario.inputs) Scenario.start
  = after (firstn 2 Scenario.inputs ++ skipn 2 Scenario.inputs) Scenario.start.
Proof.
  split; [reflexivity|].
  exact (proj1 (junk_is_transparent Scenario.start (Some Cases.rumour) 5
                  (firstn 2 Scenario.inputs) (skipn 2 Scenario.inputs) eq_refl)).
Defined.

(** ** Input state *)

Lemma arrows_keys (key : string) : is_Some (getDirectionFromKey key) -> key ∈ arrows.
Proof.
  unfold getDirectionFromKey, arrows. intros H.
  destruct (String.eqb_spec key "ArrowUp") as [Heq|]; [rewrite Heq; set_solver|].
  destruct (String.eqb_spec key "ArrowDown") as [Heq|]; [rewrite Heq; set_solver|].
  destruct (String.eqb_spec key "ArrowLeft") as [Heq|]; [rewrite Heq; set_solver|].
  destruct (String.eqb_spec key "ArrowRight") as [Heq|]; [rewrite Heq; set_solver|].
  destruct H as [? H]. discriminate.
Qed.

Lemma key_state_consistent (st st' : GameClient) :
  (pressedKeys st', isMoving st', currentDirection st')
  = (pressedKeys st, isMoving st, currentDirection st) ->
  keys_consistent st -> keys_consistent st'.
Proof. unfold keys_consistent. intros H. injection H as -> -> ->. auto. Qed.

Lemma dispatch_keeps_keys_consistent (now : Z) (i : Input) (st : GameClient) :
  keys_consistent st -> keys_consistent (client (dispatch now i st)).
Proof.
  intros Hc.
  assert (Hother : forall m : M unit,
            keeps (same (fun s => (pressedKeys s, isMoving s, currentDirection s))) m ->
            keys_consistent (client (m st))).
  { intros m Hm. apply (key_state_consistent st); [symmetry; apply Hm | exact Hc]. }
  destruct Hc as (Hk & He & Hn).
  destruct i as [| |parsed|key|key|message]; cbn [dispatch];
    try (apply Hother; solve [frame_with ltac:(idtac; reflexivity)]).
  - (* key down *)
    destruct (getDirectionFromKey key) as [d|] eqn:Hd.
    + destruct (decide (key ∈ pressedKeys st)) as [Hin|Hin].
      * rewrite (handleKeyDown_held st key d Hd Hin). repeat split; auto; apply He || apply Hn; auto.
      * rewrite (handleKeyDown_pressed st key d Hd Hin). cbn [client].
        split; [|split]; cbn.
        -- intros k Hk'. apply elem_of_union in Hk' as [Hk'|Hk']; [|auto].
           apply elem_of_singleton in Hk'. subst k. rewrite Hd. eauto.
        -- intros Hempty. exfalso. set_solver.
        -- intros _. split; eauto.
    + rewrite (handleKeyDown_other st key Hd). repeat split; auto; apply He || apply Hn; auto.
  - (* key up *)
    destruct (getDirectionFromKey key) as [d|] eqn:Hd.
    + destruct (decide (key ∈ pressedKeys st)) as [Hin|Hin].
      * destruct (decide (pressedKeys st ∖ {[key]} = ∅)) as [Hlast|Hmore].
        -- rewrite (handleKeyUp_last st key d Hd Hin Hlast). cbn [client].
           split; [|split]; cbn.
           ++ intros k Hk'. apply Hk. set_solver.
           ++ auto.
           ++ intros Hne. contradiction.
        -- rewrite (handleKeyUp_more st key d Hd Hin Hmore). cbn [client].
           split; [|split]; cbn.
           ++ intros k Hk'. apply Hk. set_solver.
           ++ intros Hempty. contradiction.
           ++ intros _. apply Hn. set_solver.
      * rewrite (handleKeyUp_other st key) by (right; exact Hin).
        repeat split; auto; apply He || apply Hn; auto.
    + rewrite (handleKeyUp_other st key) by (left; exact Hd).
      repeat split; auto; apply He || apply Hn; auto.
Qed.

(** Along any session from a consistent client (the constructed one is),
    the pressed set holds only arrow keys, so never more than four; the
    client says it is moving exactly while the set is non-empty, and has a
    current direction exactly then. *)
Theorem keys_stay_consistent (st : GameClient) (inputs : list (Z * Input)) :
  keys_consistent st ->
  let st' := after inputs st in
  keys_consistent st' /\
  pressedKeys st' ⊆ arrows /\
  (size (pressedKeys st') <= 4)%nat /\
  (isMoving st' = true <-> pressedKeys st' <> ∅) /\
  (is_Some (currentDirection st') <-> pressedKeys st' <> ∅).
Proof.
  intros Hc. cbv zeta.
  assert (H : keys_consistent (after inputs st)).
  { revert st Hc. induction inputs as [|[now i] rest IH]; intros st Hc; simpl; [exact Hc|].
    apply IH, dispatch_keeps_keys_consistent, Hc. }
  split; [exact H|]. destruct H as (Hk & He & Hn).
  assert (Hsub : pressedKeys (after inputs st) ⊆ arrows)
    by (intros k Hin; apply arrows_keys, Hk, Hin).
  split; [exact Hsub|]. split.
  - apply subseteq_size in Hsub. assert (Hs : size arrows = 4%nat) by (vm_compute; reflexivity).
    lia.
  - split; split.
    + intros Hm Hempty. destruct (He Hempty) as [Hf _]. congruence.
    + intros Hne. apply Hn, Hne.
    + intros [d Hd] Hempty. destruct (He Hempty) as [_ Hf]. congruence.
    + intros Hne. apply Hn, Hne.
Qed.

Lemma keys_stay_consistent_witness :
  keys_consistent Scenario.start /\
  (size (pressedKeys (after Cases.typing Scenario.start)) <= 4)%nat.
Proof.
  assert (H : keys_consistent Scenario.start).
  { split; [|split].
    - intros k Hk. exfalso. revert Hk. apply not_elem_of_empty.
    - intros _. split; reflexivity.
    - intros Hne. exfalso. apply Hne. reflexivity. }
  split; [exact H|].
  exact (proj1 (proj2 (proj2 (keys_stay_consistent Scenario.start Cases.typing H)))).
Defined.

(** ** What a repaint changes *)



(** ** The two sides of the client *)

(** Input does not touch the world and the network does not touch the
    input: no key, chat button, click, or opening or closing of the socket
    changes the local identity, the entity store, the avatar tables, the
    image cache or the camera; and no inbound message, whatever it is,
    changes the pressed keys, the moving flag, the current direction or the
    socket. *)
Theorem sides_are_separate (st : GameClient) (now : Z) :
  (forall i, (forall parsed, i <> SocketMessage parsed) ->
     world (client (dispatch now i st)) = world st) /\
  (forall clientX clientY rect_left rect_top,
     world (client (handleCanvasClick clientX clientY rect_left rect_top st)) = world st) /\
  (forall parsed,
     input_state (client (ws_onmessage parsed now st)) = input_state st).
Proof.
  split; [|split].
  - intros i Hi. symmetry.
    assert (Hk : keeps (same world) (dispatch now i)).
    { destruct i as [| |parsed|key|key|message];
        try (exfalso; eapply Hi; reflexivity);
        frame_with ltac:(idtac; reflexivity). }
    exact (Hk st).
  - intros. symmetry.
    apply ((ltac:(unfold handleCanvasClick, sendClickToMoveCommand;
                  frame_with ltac:(idtac; reflexivity))
            : keeps (same world) (handleCanvasClick clientX clientY rect_left rect_top)) st).
  - intros parsed. symmetry.
    apply ((ltac:(frame_with ltac:(idtac; reflexivity))
            : keeps (same input_state) (ws_onmessage parsed now)) st).
Qed.

Lemma sides_are_separate_witness :
  world (client (dispatch Scenario.t0 (KeyDown "ArrowUp") Cases.playing))
  = world Cases.playing.
Proof.
  apply (proj1 (sides_are_separate Cases.playing Scenario.t0)). discriminate.
Defined.

(** ** Every live overlay is painted *)






(** ** The local echo *)


